(** * win-cli-mcp-server: the tool handlers of [src/index.ts]

    A shallow embedding of [CLIServer] (command validation, the local
    execution engine with its output capture and timeout, the command
    history, and the SSH tool handlers), followed by the properties of the
    handlers that the specification states. *)

From stdpp Require Import gmap strings list fin_maps pretty.
From Stdlib Require Import ZArith Ascii String.

Local Open Scope string_scope.

(** ** JavaScript values used by the handlers *)

Module JS.

(** Characters that cannot be written inside a string literal. *)
Definition dquote : string := String (ascii_of_nat 34) EmptyString.
Definition nl : string := String (ascii_of_nat 10) EmptyString.

(** [s.length] *)
Definition len (s : string) : Z := Z.of_nat (String.length s).

(** Truthiness of a string: the empty string is falsy. *)
Definition truthy (s : string) : bool :=
  match s with EmptyString => false | String _ _ => true end.

(** [a || b] on strings. *)
Definition or_else (a b : string) : string := if truthy a then a else b.

(** Truthiness of an optional string ([undefined] and the empty string are
    falsy). *)
Definition present (o : option string) : option string :=
  match o with
  | Some s => if truthy s then Some s else None
  | None => None
  end.

(** [arr.slice(start)]: a negative [start] counts from the end. *)
Definition slice_from {A} (start : Z) (l : list A) : list A :=
  let n := Z.of_nat (List.length l) in
  let k := if (start <? 0)%Z then Z.max (n + start) 0 else Z.min start n in
  drop (Z.to_nat k) l.

(** [s.slice(0, n)] for a non-negative [n]. *)
Fixpoint str_take (n : nat) (s : string) : string :=
  match n, s with
  | S n', String c s' => String c (str_take n' s')
  | _, _ => EmptyString
  end.

(** [s.startsWith(p)] *)
Fixpoint startsWith (s p : string) : bool :=
  match p, s with
  | EmptyString, _ => true
  | String a p', String b s' => if Ascii.eqb a b then startsWith s' p' else false
  | String _ _, EmptyString => false
  end.

(** [s.replace(/[:.]/g, '-')] *)
Fixpoint replace_colon_dot (s : string) : string :=
  match s with
  | EmptyString => EmptyString
  | String c s' =>
      String (if (Ascii.eqb c ":" || Ascii.eqb c ".")%bool then "-"%char else c)
             (replace_colon_dot s')
  end.

(** [Array.from(new Set(arr))]: duplicates removed, first occurrences kept
    in insertion order. *)
Fixpoint set_of_array_go (seen : list string) (l : list string) : list string :=
  match l with
  | [] => []
  | x :: l' =>
      if bool_decide (x ∈ seen) then set_of_array_go seen l'
      else x :: set_of_array_go (x :: seen) l'
  end.
Definition set_of_array (l : list string) : list string := set_of_array_go [] l.

(** [arr.join(', ')] *)
Fixpoint join_comma (l : list string) : string :=
  match l with
  | [] => EmptyString
  | [x] => x
  | x :: l' => x ++ ", " ++ join_comma l'
  end.

(** Rendering of an integer by a template literal. *)
Definition show_int (z : Z) : string := pretty z.

(** Rendering of an exit code, [null] included. *)
Definition show_code (c : option Z) : string :=
  match c with Some z => show_int z | None => "null" end.

(** [code ?? -1] *)
Definition code_or_minus1 (c : option Z) : Z := default (-1)%Z c.

End JS.

(** ** Errors *)

Inductive ErrorCode := InvalidRequest | InvalidParams | InternalError | MethodNotFound.

(** The issues zod can raise on the argument schemas of the four tools. *)
Inductive ZodIssue :=
| invalid_enum_value (options : list string) (received : string)
| too_small (minimum : Z)
| too_big (maximum : Z).

(** Thrown values: [McpError], [z.ZodError], and any other [Error]. *)
Inductive exn :=
| McpError (code : ErrorCode) (message : string)
| ZodError (errors : list ZodIssue)
| Error (message : string).

(** A computation that returns or throws. *)
Definition Throws (A : Type) : Type := exn + A.

Definition throw {A} (e : exn) : Throws A := inl e.
Definition ok {A} (a : A) : Throws A := inr a.

Global Instance Throws_bind : MBind Throws :=
  λ A B k m, match m with inl e => inl e | inr a => k a end.

(** [if (c) throw e;] *)
Definition throw_if (c : bool) (e : exn) : Throws unit :=
  if c then throw e else ok tt.

(** ** Configuration ([types/config.js], as the handlers read it) *)

(** A shell profile: enabled flag, executable, fixed argument prefix, and the
    operator rules that [validateShellOperators] reads. *)
Record ShellConfig := {
  shell_enabled : bool;
  shell_command : string;
  shell_args : list string;
  allowedOperators : list string
}.

Inductive ShellKey := powershell | cmd | gitbash.

Record Shells := {
  shells_powershell : ShellConfig;
  shells_cmd : ShellConfig;
  shells_gitbash : ShellConfig
}.

Record SecurityConfig := {
  maxCommandLength : Z;
  blockedCommands : list string;
  blockedArguments : list string;
  allowedPaths : list string;
  restrictWorkingDirectory : bool;
  logCommands : bool;
  maxHistorySize : Z;
  commandTimeout : Z;
  enableInjectionProtection : bool;
  maxOutputSize : Z;
  enableOutputFiles : bool;
  outputDirectory : option string;
  outputFileRetentionHours : Z
}.

Record SSHConnectionConfig := {
  ssh_host : string;
  ssh_port : Z;
  ssh_username : string
}.

Record SSHConfig := {
  ssh_enabled : bool;
  connections : gmap string SSHConnectionConfig
}.

Record ServerConfig := {
  security : SecurityConfig;
  shells : Shells;
  ssh : SSHConfig
}.

(** [config.shells[shell]] *)
Definition shell_config (s : Shells) (k : ShellKey) : ShellConfig :=
  match k with
  | powershell => shells_powershell s
  | cmd => shells_cmd s
  | gitbash => shells_gitbash s
  end.

Definition shell_name (k : ShellKey) : string :=
  match k with
  | powershell => "powershell"
  | cmd => "cmd"
  | gitbash => "gitbash"
  end.

Definition shell_of_name (s : string) : option ShellKey :=
  if String.eqb s "powershell" then Some powershell
  else if String.eqb s "cmd" then Some cmd
  else if String.eqb s "gitbash" then Some gitbash
  else None.

(** [CommandHistoryEntry] of [types/config.js] *)
Record CommandHistoryEntry := {
  entry_command : string;
  entry_output : string;
  entry_timestamp : string;
  entry_exitCode : Z;
  entry_connectionId : option string
}.

(** ** Collaborators imported by [index.ts] *)

(** [utils/validation.js]. [validateShellOperators] returns the value it
    throws, if any; [parseCommand] may throw as well. *)
Class Validation := {
  validateShellOperators : string → ShellConfig → option exn;
  parseCommand : string → Throws (string * list string);
  isCommandBlocked : string → list string → bool;
  isArgumentBlocked : list string → list string → bool;
  extractCommandName : string → string
}.

(** What the handlers take from Node, zod and the MCP SDK without deciding
    anything with it: paths, the clock's text form, number and error
    rendering. *)
Class Platform := {
  path_resolve : string → string;
  process_cwd : string;
  path_join : string → string → string;
  os_tmpdir : string;
  (** the entry name of a path inside a directory, as [readdirSync] lists it *)
  entry_name : string → string → option string;
  (** [new Date(ms).toISOString()] *)
  toISOString : Z → string;
  (** the text of [maxOutputSize / (1024 * 1024)] in a template literal *)
  show_megabytes : Z → string;
  (** [error.message] (or [String(error)]) of a thrown value *)
  error_message : exn → string;
  (** [issue.message] of a zod issue *)
  issue_message : ZodIssue → string;
  (** [JSON.stringify(history, null, 2)] *)
  JSON_stringify : list CommandHistoryEntry → string
}.

(** ** Command validation *)

Section ValidateCommand.
Context `{Validation}.
Variable config : ServerConfig.

Definition blocked_message (executable : string) : string :=
  "Command is blocked: " ++ JS.dquote ++ extractCommandName executable ++ JS.dquote.

Definition blocked_argument_message : string :=
  "One or more arguments are blocked. Check configuration for blocked patterns.".

Definition too_long_message : string :=
  "Command exceeds maximum length of " ++ JS.show_int (maxCommandLength (security config)).

(** [CLIServer.validateCommand] *)
Definition validateCommand (shell : ShellKey) (command : string) : Throws unit :=
  (if enableInjectionProtection (security config) then
     let shellConfig := shell_config (shells config) shell in
     match validateShellOperators command shellConfig with
     | Some e => throw e
     | None => ok tt
     end
   else ok tt) ;;
  '(executable, args) ← parseCommand command;
  throw_if (isCommandBlocked executable (JS.set_of_array (blockedCommands (security config))))
           (McpError InvalidRequest (blocked_message executable)) ;;
  throw_if (isArgumentBlocked args (blockedArguments (security config)))
           (McpError InvalidRequest blocked_argument_message) ;;
  throw_if (JS.len command >? maxCommandLength (security config))%Z
           (McpError InvalidRequest too_long_message).

End ValidateCommand.

(** ** The server's mutable state and its surroundings *)

Record File := { file_content : string; file_mtime : Z }.

(** A call of [child_process.spawn]: executable, arguments, working
    directory. *)
Record SpawnCall := {
  spawn_file : string;
  spawn_args : list string;
  spawn_cwd : string
}.

(** Calls made on the [SSHConnectionPool]. [getConnection] is given what
    [connections[connectionId]] evaluated to: a configured connection, or,
    for a name that the object only inherits, that member of
    [Object.prototype]. *)
Inductive PoolCall :=
| getConnection (connectionId : string) (c : SSHConnectionConfig)
| getConnection_inherited (connectionId : string) (member : string)
| executeCommand (connectionId : string) (command : string)
| closeConnection (connectionId : string).

(** The names a plain object inherits from [Object.prototype]; each of them
    reads as a truthy value. *)
Definition object_prototype_names : list string :=
  ["constructor"; "__defineGetter__"; "__defineSetter__"; "hasOwnProperty";
   "__lookupGetter__"; "__lookupSetter__"; "isPrototypeOf"; "propertyIsEnumerable";
   "toString"; "valueOf"; "__proto__"; "toLocaleString"].

(** What reading a property of the [connections] object gives. *)
Inductive ConnectionValue :=
| own_connection (c : SSHConnectionConfig)
| inherited_member (name : string).

(** [connections[connectionId]]: the object's own entry if it has one,
    otherwise what it inherits under that name, otherwise [undefined]. *)
Definition connection_lookup (connections : gmap string SSHConnectionConfig)
    (connectionId : string) : option ConnectionValue :=
  match connections !! connectionId with
  | Some c => Some (own_connection c)
  | None =>
      if bool_decide (connectionId ∈ object_prototype_names)
      then Some (inherited_member connectionId)
      else None
  end.

(** [sshPool.getConnection(connectionId, connectionConfig)] *)
Definition pool_getConnection (connectionId : string) (v : ConnectionValue) : PoolCall :=
  match v with
  | own_connection c => getConnection connectionId c
  | inherited_member name => getConnection_inherited connectionId name
  end.

(** [commandHistory] is the server's own field; the file system, the list of
    spawned processes and the list of calls on the session pool are what the
    handlers do to the outside. *)
Record World := {
  commandHistory : list CommandHistoryEntry;
  files : gmap string File;
  spawn_calls : list SpawnCall;
  pool_calls : list PoolCall
}.

Definition set_history (h : list CommandHistoryEntry) (w : World) : World :=
  {| commandHistory := h; files := files w;
     spawn_calls := spawn_calls w; pool_calls := pool_calls w |}.

Definition set_files (fs : gmap string File) (w : World) : World :=
  {| commandHistory := commandHistory w; files := fs;
     spawn_calls := spawn_calls w; pool_calls := pool_calls w |}.

Definition add_spawn (c : SpawnCall) (w : World) : World :=
  {| commandHistory := commandHistory w; files := files w;
     spawn_calls := (spawn_calls w ++ [c])%list; pool_calls := pool_calls w |}.

Definition add_pool_call (c : PoolCall) (w : World) : World :=
  {| commandHistory := commandHistory w; files := files w;
     spawn_calls := spawn_calls w; pool_calls := (pool_calls w ++ [c])%list |}.

(** What a tool call returns. *)
Record Metadata := {
  meta_exitCode : Z;
  meta_shell : option string;
  meta_workingDirectory : option string;
  meta_connectionId : option string
}.

Record ToolResult := {
  content_text : string;
  isError : option bool;
  metadata : option Metadata
}.

(** A promise settles once: later calls of [resolve] and [reject] are
    ignored. *)
Inductive Promise :=
| Pending
| Resolved (r : ToolResult)
| Rejected (e : exn).

Definition resolve (r : ToolResult) (p : Promise) : Promise :=
  match p with Pending => Resolved r | _ => p end.

Definition reject (e : exn) (p : Promise) : Promise :=
  match p with Pending => Rejected e | _ => p end.

(** A timer of [setTimeout]: its callback runs at most once, and never after
    [clearTimeout]. *)
Inductive TimerStatus := Armed | Cleared | Fired.

Record Timer := { timer_ms : Z; timer_status : TimerStatus }.

Definition clearTimeout (t : Timer) : Timer :=
  match timer_status t with
  | Armed => {| timer_ms := timer_ms t; timer_status := Cleared |}
  | _ => t
  end.

(** ** The command history *)

Section History.
Variable config : ServerConfig.

(** [this.commandHistory.push(entry)] *)
Definition history_push (e : CommandHistoryEntry) (w : World) : World :=
  set_history (commandHistory w ++ [e])%list w.

(** The trim that follows a push on the paths that have it. *)
Definition history_trim (w : World) : World :=
  let m := maxHistorySize (security config) in
  if (Z.of_nat (List.length (commandHistory w)) >? m)%Z
  then set_history (JS.slice_from (- m) (commandHistory w)) w
  else w.

(** [if (logCommands) { push }] *)
Definition log_untrimmed (e : CommandHistoryEntry) (w : World) : World :=
  if logCommands (security config) then history_push e w else w.

(** [if (logCommands) { push; trim }] *)
Definition log_trimmed (e : CommandHistoryEntry) (w : World) : World :=
  if logCommands (security config) then history_trim (history_push e w) else w.

End History.

(** ** Local execution: the closure of one [execute_command] call *)

(** The variables the event handlers of one spawned process share. *)
Record Exec := {
  arg_command : string;
  arg_shell : string;
  workingDir : string;
  output : string;
  error : string;
  outputSize : Z;
  truncated : bool;
  outputFilePath : option string;
  timeout : Timer;
  kill_calls : nat;
  promise : Promise
}.

(** Events delivered to the handlers registered on the process and the
    timer. *)
Inductive ProcEvent :=
| stdout_data (chunk : string)
| stderr_data (chunk : string)
| close (code : option Z)
| process_error (message : string)
| timer_fires.

Definition set_capture (o e : string) (sz : Z) (t : bool) (p : option string)
    (x : Exec) : Exec :=
  {| arg_command := arg_command x; arg_shell := arg_shell x; workingDir := workingDir x;
     output := o; error := e; outputSize := sz; truncated := t; outputFilePath := p;
     timeout := timeout x; kill_calls := kill_calls x; promise := promise x |}.

Definition set_promise (p : Promise) (x : Exec) : Exec :=
  {| arg_command := arg_command x; arg_shell := arg_shell x; workingDir := workingDir x;
     output := output x; error := error x; outputSize := outputSize x;
     truncated := truncated x; outputFilePath := outputFilePath x;
     timeout := timeout x; kill_calls := kill_calls x; promise := p |}.

Definition set_timeout (t : Timer) (x : Exec) : Exec :=
  {| arg_command := arg_command x; arg_shell := arg_shell x; workingDir := workingDir x;
     output := output x; error := error x; outputSize := outputSize x;
     truncated := truncated x; outputFilePath := outputFilePath x;
     timeout := t; kill_calls := kill_calls x; promise := promise x |}.

(** [shellProcess.kill()] *)
Definition kill (x : Exec) : Exec :=
  {| arg_command := arg_command x; arg_shell := arg_shell x; workingDir := workingDir x;
     output := output x; error := error x; outputSize := outputSize x;
     truncated := truncated x; outputFilePath := outputFilePath x;
     timeout := timeout x; kill_calls := S (kill_calls x); promise := promise x |}.

(** [fs.writeFileSync(path, content)] and [fs.appendFileSync(path, chunk)];
    both are taken to succeed. *)
Definition writeFileSync (path content : string) (now : Z)
    (fs : gmap string File) : gmap string File :=
  <[path := {| file_content := content; file_mtime := now |}]> fs.

Definition appendFileSync (path chunk : string) (now : Z)
    (fs : gmap string File) : gmap string File :=
  let old := match fs !! path with Some f => file_content f | None => EmptyString end in
  <[path := {| file_content := old ++ chunk; file_mtime := now |}]> fs.

Section Execution.
Context `{Platform}.
Variable config : ServerConfig.

Local Abbreviation sec := (security config).

Definition output_file_name (now : Z) : string :=
  "output-" ++ JS.replace_colon_dot (toISOString now) ++ ".txt".

(** [saveToFile]: the path written (if any) and the new file system. The
    closure's [outputFilePath] is assigned the same path. *)
Definition saveToFile (now : Z) (content : string) (fs : gmap string File)
    : option string * gmap string File :=
  match JS.present (outputDirectory sec) with
  | None => (None, fs)
  | Some dir =>
      let path := path_join dir (output_file_name now) in
      (Some path, writeFileSync path content now fs)
  end.

Definition exceeded_notice : string :=
  "Output exceeded " ++ show_megabytes (maxOutputSize sec) ++ "MB limit." ++ JS.nl.

Definition saved_notice (filePath : option string) : string :=
  match filePath with
  | Some p => exceeded_notice ++ "Full output saved to: " ++ p ++ JS.nl
  | None => exceeded_notice
  end.

Definition stdout_marker : string :=
  JS.nl ++ "... Output truncated due to size limit ...".

Definition stderr_marker : string :=
  JS.nl ++ "... Error output truncated due to size limit ...".

(** [shellProcess.stdout.on('data', ...)] *)
Definition on_stdout (now : Z) (chunk : string) (x : Exec) (fs : gmap string File)
    : Exec * gmap string File :=
  if (outputSize x + JS.len chunk <=? maxOutputSize sec)%Z then
    (set_capture (output x ++ chunk) (error x) (outputSize x + JS.len chunk)
                 (truncated x) (outputFilePath x) x, fs)
  else if enableOutputFiles sec then
    if negb (truncated x) then
      let '(filePath, fs') := saveToFile now (output x ++ chunk) fs in
      (set_capture (saved_notice filePath) (error x) (outputSize x) true
                   (match filePath with Some p => Some p | None => outputFilePath x end) x,
       fs')
    else
      match outputFilePath x with
      | Some p => (x, appendFileSync p chunk now fs)
      | None => (x, fs)
      end
  else if negb (truncated x) then
    (set_capture (output x ++ stdout_marker) (error x) (outputSize x) true
                 (outputFilePath x) x, fs)
  else (x, fs).

(** [shellProcess.stderr.on('data', ...)] *)
Definition on_stderr (chunk : string) (x : Exec) : Exec :=
  if (outputSize x + JS.len chunk <=? maxOutputSize sec)%Z then
    set_capture (output x) (error x ++ chunk) (outputSize x + JS.len chunk)
                (truncated x) (outputFilePath x) x
  else if negb (truncated x) then
    set_capture (output x) (error x ++ stderr_marker) (outputSize x) true
                (outputFilePath x) x
  else x.

(** The note on truncation that both branches of the close handler add. *)
Definition truncation_note (x : Exec) : string :=
  if truncated x then
    match outputFilePath x with
    | Some p =>
        JS.nl ++ JS.nl ++ "Output exceeded " ++ show_megabytes (maxOutputSize sec)
          ++ "MB limit and was saved to:" ++ JS.nl ++ p
    | None =>
        JS.nl ++ JS.nl ++ "Output exceeded " ++ show_megabytes (maxOutputSize sec)
          ++ "MB limit and was truncated." ++ JS.nl
          ++ "To save large outputs to files, enable 'enableOutputFiles' in your config.json"
          ++ JS.nl ++ "Outputs will be saved to: "
          ++ match JS.present (outputDirectory sec) with
             | Some dir => dir
             | None => path_join os_tmpdir "win-cli-mcp-output"
             end
    end
  else EmptyString.

(** [resultMessage] of the close handler. *)
Definition resultMessage (code : option Z) (x : Exec) : string :=
  match code with
  | Some 0%Z =>
      JS.or_else (output x) "Command completed successfully (no output)"
        ++ truncation_note x
  | _ =>
      "Command failed with exit code " ++ JS.show_code code ++ JS.nl
        ++ (if JS.truthy (error x)
            then "Error output:" ++ JS.nl ++ error x ++ JS.nl else EmptyString)
        ++ (if JS.truthy (output x)
            then "Standard output:" ++ JS.nl ++ output x else EmptyString)
        ++ (if (negb (JS.truthy (error x)) && negb (JS.truthy (output x)))%bool
            then "No error message or output was provided" else EmptyString)
        ++ truncation_note x
  end.

(** The retention sweep of the close handler. A missing file makes
    [statSync] throw, which ends the sweep where it stands. *)
Fixpoint sweep_each (cutoff : Z) (paths : list string) (fs : gmap string File)
    : gmap string File :=
  match paths with
  | [] => fs
  | p :: ps =>
      match fs !! p with
      | None => fs
      | Some f =>
          sweep_each cutoff ps
            (if (file_mtime f <? cutoff)%Z then delete p fs else fs)
      end
  end.

Definition readdirSync (dir : string) (fs : gmap string File) : list string :=
  omap (λ pf, entry_name dir (fst pf)) (map_to_list fs).

Definition clean_old_output_files (now : Z) (fs : gmap string File)
    : gmap string File :=
  match enableOutputFiles sec, JS.present (outputDirectory sec) with
  | true, Some dir =>
      let retentionMs := (outputFileRetentionHours sec * 60 * 60 * 1000)%Z in
      let cutoffTime := (now - retentionMs)%Z in
      sweep_each cutoffTime
        (map (path_join dir)
             (List.filter (λ file, JS.startsWith file "output-") (readdirSync dir fs)))
        fs
  | _, _ => fs
  end.

Definition is_zero (code : option Z) : bool :=
  match code with Some 0%Z => true | _ => false end.

(** The first ['close'] listener. *)
Definition on_close (now : Z) (code : option Z) (x : Exec) (w : World)
    : Exec * World :=
  let msg := resultMessage code x in
  let w1 :=
    log_trimmed config
      {| entry_command := arg_command x; entry_output := msg;
         entry_timestamp := toISOString now;
         entry_exitCode := JS.code_or_minus1 code;
         entry_connectionId := None |} w in
  let w2 := set_files (clean_old_output_files now (files w1)) w1 in
  (set_promise
     (resolve {| content_text := msg;
                 isError := Some (negb (is_zero code));
                 metadata := Some {| meta_exitCode := JS.code_or_minus1 code;
                                     meta_shell := Some (arg_shell x);
                                     meta_workingDirectory := Some (workingDir x);
                                     meta_connectionId := None |} |}
              (promise x)) x,
   w2).

(** [shellProcess.on('error', ...)] *)
Definition on_error (now : Z) (message : string) (x : Exec) (w : World)
    : Exec * World :=
  let errorMessage := "Shell process error: " ++ message in
  (set_promise (reject (McpError InternalError errorMessage) (promise x)) x,
   log_untrimmed config
     {| entry_command := arg_command x; entry_output := errorMessage;
        entry_timestamp := toISOString now; entry_exitCode := (-1)%Z;
        entry_connectionId := None |} w).

Definition timeoutMessage : string :=
  "Command execution timed out after " ++ JS.show_int (commandTimeout sec)
    ++ " seconds. Consult the server admin for configuration changes (config.json - commandTimeout).".

(** The callback given to [setTimeout]. *)
Definition on_timeout (now : Z) (x : Exec) (w : World) : Exec * World :=
  let x1 := kill x in
  (set_promise (reject (McpError InternalError timeoutMessage) (promise x1)) x1,
   log_untrimmed config
     {| entry_command := arg_command x; entry_output := timeoutMessage;
        entry_timestamp := toISOString now; entry_exitCode := (-1)%Z;
        entry_connectionId := None |} w).

(** One event of a running execution, at clock reading [now]. On ['close']
    the two listeners run in the order of their registration; the timer's
    callback runs only while the timer is armed. *)
Definition exec_step (now : Z) (ev : ProcEvent) (xw : Exec * World) : Exec * World :=
  let '(x, w) := xw in
  match ev with
  | stdout_data chunk =>
      let '(x', fs') := on_stdout now chunk x (files w) in (x', set_files fs' w)
  | stderr_data chunk => (on_stderr chunk x, w)
  | close code =>
      let '(x', w') := on_close now code x w in
      (set_timeout (clearTimeout (timeout x')) x', w')
  | process_error message => on_error now message x w
  | timer_fires =>
      match timer_status (timeout x) with
      | Armed =>
          on_timeout now
            (set_timeout {| timer_ms := timer_ms (timeout x); timer_status := Fired |} x) w
      | _ => (x, w)
      end
  end.

(** A run: events with their clock readings, oldest first. *)
Definition exec_run (evs : list (Z * ProcEvent)) (xw : Exec * World) : Exec * World :=
  foldl (λ s ev, exec_step (fst ev) (snd ev) s) xw evs.

End Execution.

(** ** The tool handlers *)

(** A tool call with its arguments, taken to be present and of the right JSON
    type; [limit] is an integer-valued number. *)
Inductive ToolCall :=
| execute_command (shell command : string) (workingDir : option string)
| get_command_history (limit : option Z)
| ssh_execute (connectionId command : string)
| ssh_disconnect (connectionId : string)
| unknown_tool (name : string).

(** What [spawn] does when called. *)
Inductive SpawnOutcome :=
| spawn_throws (message : string)
| spawned (has_stdout has_stderr : bool).

(** What the session pool does during one [ssh_execute]. *)
Inductive SSHOutcome :=
| connect_rejects (e : exn)
| execute_rejects (e : exn)
| execute_returns (output : string) (exitCode : Z).

(** The surroundings of one call: the clock reading used for the history
    entry, and the answers of the collaborators. *)
Record Env := {
  env_now : Z;
  env_spawn : SpawnOutcome;
  env_ssh : SSHOutcome;
  env_close : option exn
}.

(** A call either settles at once or leaves a running execution whose
    promise is pending. *)
Inductive CallOutcome :=
| Settled (r : Throws ToolResult)
| Running (x : Exec).

Section Handlers.
Context `{Validation} `{Platform}.
Variable config : ServerConfig.

Local Abbreviation sec := (security config).

(** The names [z.enum] accepts for [shell]. *)
Definition enabled_shells : list string :=
  map shell_name
      (List.filter (λ k, shell_enabled (shell_config (shells config) k))
                   [powershell; cmd; gitbash]).

(** [z.enum(...)] on [shell], then the cast to a key of [config.shells]. *)
Definition parse_shell (shell : string) : Throws ShellKey :=
  if bool_decide (shell ∈ enabled_shells) then
    match shell_of_name shell with
    | Some k => ok k
    | None => throw (ZodError [invalid_enum_value enabled_shells shell])
    end
  else throw (ZodError [invalid_enum_value enabled_shells shell]).

Definition working_dir_message (workingDir : string) : string :=
  "Working directory (" ++ workingDir
    ++ ") outside allowed paths. Consult the server admin for configuration changes (config.json - restrictWorkingDirectory, allowedPaths).".

(** The part of the [execute_command] case that runs before the promise
    is created. *)
Definition execute_command_checks (shell command : string) (dir : option string)
    : Throws (ShellKey * string) :=
  shellKey ← parse_shell shell;
  validateCommand config shellKey command;;
  let workingDir :=
    match JS.present dir with
    | Some d => path_resolve d
    | None => process_cwd
    end in
  (if restrictWorkingDirectory sec then
     throw_if (negb (existsb (λ allowedPath, JS.startsWith workingDir allowedPath)
                             (JS.set_of_array (allowedPaths sec))))
              (McpError InvalidRequest (working_dir_message workingDir))
   else ok tt);;
  ok (shellKey, workingDir).

Definition spawn_failed_message (message : string) : string :=
  "Failed to start shell process: " ++ message
    ++ ". Consult the server admin for configuration changes (config.json - shells).".

(** The executor of the promise: spawn, check the streams, register the
    handlers, start the timer. A throw in the executor rejects the
    promise. *)
Definition execute_command_spawn (shell command : string) (shellKey : ShellKey)
    (workingDir : string) (o : SpawnOutcome) (w : World) : CallOutcome * World :=
  let shellConfig := shell_config (shells config) shellKey in
  let w1 :=
    add_spawn {| spawn_file := shell_command shellConfig;
                 spawn_args := (shell_args shellConfig ++ [command])%list;
                 spawn_cwd := workingDir |} w in
  match o with
  | spawn_throws message =>
      (Settled (throw (McpError InternalError (spawn_failed_message message))), w1)
  | spawned has_stdout has_stderr =>
      if (negb has_stdout || negb has_stderr)%bool then
        (Settled (throw (McpError InternalError
                           "Failed to initialize shell process streams")), w1)
      else
        (Running {| arg_command := command; arg_shell := shell;
                    workingDir := workingDir;
                    output := EmptyString; error := EmptyString; outputSize := 0;
                    truncated := false; outputFilePath := None;
                    timeout := {| timer_ms := (commandTimeout sec * 1000)%Z;
                                  timer_status := Armed |};
                    kill_calls := 0; promise := Pending |}, w1)
  end.

(** [z.number().min(1).max(maxHistorySize).optional().default(10)]: the
    default goes through the same checks, and every failed check is
    reported. *)
Definition parse_limit (limit : option Z) : Throws Z :=
  let v := default 10%Z limit in
  let issues :=
    ((if (v <? 1)%Z then [too_small 1] else []) ++
     (if (v >? maxHistorySize sec)%Z then [too_big (maxHistorySize sec)] else []))%list in
  match issues with
  | [] => ok v
  | _ => throw (ZodError issues)
  end.

Definition history_disabled_notice : string :=
  "Command history is disabled in configuration. Consult the server admin for configuration changes (config.json - logCommands).".

Definition preview (entry : CommandHistoryEntry) : CommandHistoryEntry :=
  {| entry_command := entry_command entry;
     entry_output := JS.str_take 1000 (entry_output entry);
     entry_timestamp := entry_timestamp entry;
     entry_exitCode := entry_exitCode entry;
     entry_connectionId := entry_connectionId entry |}.

Definition text_result (s : string) : ToolResult :=
  {| content_text := s; isError := None; metadata := None |}.

(** The [get_command_history] case. *)
Definition get_command_history_handler (limit : option Z) (w : World)
    : Throws ToolResult :=
  if negb (logCommands sec) then ok (text_result history_disabled_notice)
  else
    limit' ← parse_limit limit;
    let history := map preview (JS.slice_from (- limit') (commandHistory w)) in
    ok (text_result (JSON_stringify history)).

Definition ssh_disabled : exn :=
  McpError InvalidRequest "SSH support is disabled in configuration".

(** The [try] block of the [ssh_execute] case. *)
Definition ssh_execute_try (connectionId command : string)
    (connectionConfig : ConnectionValue) (e : Env) (w : World)
    : Throws ToolResult * World :=
  match validateCommand config cmd command with
  | inl err => (throw err, w)
  | inr _ =>
      let w1 := add_pool_call (pool_getConnection connectionId connectionConfig) w in
      match env_ssh e with
      | connect_rejects err => (throw err, w1)
      | execute_rejects err =>
          (throw err, add_pool_call (executeCommand connectionId command) w1)
      | execute_returns out exitCode =>
          let w2 := add_pool_call (executeCommand connectionId command) w1 in
          let w3 :=
            log_trimmed config
              {| entry_command := command; entry_output := out;
                 entry_timestamp := toISOString (env_now e);
                 entry_exitCode := exitCode;
                 entry_connectionId := Some connectionId |} w2 in
          (ok {| content_text :=
                   JS.or_else out "Command completed successfully (no output)";
                 isError := Some (negb (exitCode =? 0)%Z);
                 metadata := Some {| meta_exitCode := exitCode;
                                     meta_shell := None;
                                     meta_workingDirectory := None;
                                     meta_connectionId := Some connectionId |} |},
           w3)
      end
  end.

(** The [ssh_execute] case, with its [catch]. *)
Definition ssh_execute_handler (connectionId command : string) (e : Env) (w : World)
    : Throws ToolResult * World :=
  if negb (ssh_enabled (ssh config)) then (throw ssh_disabled, w)
  else
    match connection_lookup (connections (ssh config)) connectionId with
    | None =>
        (throw (McpError InvalidRequest
                  ("Unknown SSH connection ID: " ++ connectionId)), w)
    | Some connectionConfig =>
        match ssh_execute_try connectionId command connectionConfig e w with
        | (inr r, w') => (ok r, w')
        | (inl err, w') =>
            let errorMessage := error_message err in
            (throw (McpError InternalError ("SSH error: " ++ errorMessage)),
             log_untrimmed config
               {| entry_command := command;
                  entry_output := "SSH error: " ++ errorMessage;
                  entry_timestamp := toISOString (env_now e);
                  entry_exitCode := (-1)%Z;
                  entry_connectionId := Some connectionId |} w')
        end
    end.

(** The [ssh_disconnect] case. *)
Definition ssh_disconnect_handler (connectionId : string) (e : Env) (w : World)
    : Throws ToolResult * World :=
  if negb (ssh_enabled (ssh config)) then (throw ssh_disabled, w)
  else
    let w1 := add_pool_call (closeConnection connectionId) w in
    match env_close e with
    | Some err => (throw err, w1)
    | None => (ok (text_result ("Disconnected from " ++ connectionId)), w1)
    end.

(** The [catch] around the [switch]: zod's errors become invalid-params,
    everything else is thrown on. *)
Definition rethrow {A} (r : Throws A) : Throws A :=
  match r with
  | inl (ZodError errors) =>
      throw (McpError InvalidParams
               ("Invalid arguments: " ++ JS.join_comma (map issue_message errors)))
  | _ => r
  end.

(** The handler of [CallToolRequestSchema]. *)
Definition call_tool (c : ToolCall) (e : Env) (w : World) : CallOutcome * World :=
  match c with
  | execute_command shell command dir =>
      match rethrow (execute_command_checks shell command dir) with
      | inl err => (Settled (throw err), w)
      | inr (shellKey, workingDir) =>
          execute_command_spawn shell command shellKey workingDir (env_spawn e) w
      end
  | get_command_history limit =>
      (Settled (rethrow (get_command_history_handler limit w)), w)
  | ssh_execute connectionId command =>
      let '(r, w') := ssh_execute_handler connectionId command e w in
      (Settled (rethrow r), w')
  | ssh_disconnect connectionId =>
      let '(r, w') := ssh_disconnect_handler connectionId e w in
      (Settled (rethrow r), w')
  | unknown_tool name =>
      (Settled (throw (McpError MethodNotFound ("Unknown tool: " ++ name))), w)
  end.

End Handlers.

(** ** The helpers of [utils/validation.js], from their specification *)

Module SpecValidation.

Definition is_space (c : ascii) : bool :=
  (Ascii.eqb c " " || Ascii.eqb c (ascii_of_nat 9))%bool.

Definition is_quote (c : ascii) : bool :=
  (Ascii.eqb c (ascii_of_nat 34) || Ascii.eqb c (ascii_of_nat 39))%bool.

Definition is_separator (c : ascii) : bool :=
  (Ascii.eqb c "/" || Ascii.eqb c (ascii_of_nat 92))%bool.

Definition lower_char (c : ascii) : ascii :=
  let n := nat_of_ascii c in
  if ((65 <=? n) && (n <=? 90))%nat%bool then ascii_of_nat (n + 32) else c.

Fixpoint lower (s : string) : string :=
  match s with
  | EmptyString => EmptyString
  | String c s' => String (lower_char c) (lower s')
  end.

Definition snoc (s : string) (c : ascii) : string := s ++ String c EmptyString.

(** [contains s p]: [p] occurs in [s]. *)
Fixpoint contains (s p : string) : bool :=
  (JS.startsWith s p ||
   match s with
   | EmptyString => false
   | String _ s' => contains s' p
   end)%bool.

(** Modelled from the spec: [parseCommand] of utils/validation.js is not
    among the sources. The scanner tracks single- and double-quote state,
    so that a space inside a quoted literal does not end a token; leading
    whitespace is skipped; unterminated quoting is the only failure. [q] is
    the open quote, [cur] the token being read and [has] whether one is
    being read. *)
Fixpoint tokenize (q : option ascii) (cur : string) (has : bool) (s : string)
    : Throws (list string) :=
  match s with
  | EmptyString =>
      match q with
      | Some _ => throw (Error "Unterminated quote in command")
      | None => ok (if has then [cur] else [])
      end
  | String c s' =>
      match q with
      | Some q0 =>
          if Ascii.eqb c q0 then tokenize None cur true s'
          else tokenize q (snoc cur c) true s'
      | None =>
          if is_quote c then tokenize (Some c) cur true s'
          else if is_space c then
            rest ← tokenize None EmptyString false s';
            ok (if has then cur :: rest else rest)
          else tokenize None (snoc cur c) true s'
      end
  end.

(** Modelled from the spec: [parseCommand] of utils/validation.js is not
    among the sources. The first token is the executable, the remaining
    tokens are the arguments. *)
Definition parse (raw : string) : Throws (string * list string) :=
  tokens ← tokenize None EmptyString false raw;
  match tokens with
  | [] => ok (EmptyString, [])
  | executable :: args => ok (executable, args)
  end.

Fixpoint last_segment (acc : string) (s : string) : string :=
  match s with
  | EmptyString => acc
  | String c s' =>
      if is_separator c then last_segment EmptyString s'
      else last_segment (snoc acc c) s'
  end.

Definition executable_suffixes : list string := [".exe"; ".cmd"; ".bat"].

Definition strip_suffix (name suffix : string) : option string :=
  let n := String.length name in
  let k := String.length suffix in
  if ((k <=? n)%nat && String.eqb (lower (substring (n - k) k name)) suffix)%bool
  then Some (substring 0 (n - k) name) else None.

(** Modelled from the spec: [extractCommandName] of utils/validation.js is
    not among the sources. The display name is the last path segment with
    a known executable suffix removed. *)
Definition display_name (executable : string) : string :=
  let base := last_segment EmptyString executable in
  default base (head (omap (strip_suffix base) executable_suffixes)).

(** Modelled from the spec: [isCommandBlocked] of utils/validation.js is
    not among the sources. The executable is compared, case-insensitive and
    with its path and executable suffix stripped, with the blocked names. *)
Definition command_blocked (executable : string) (blocked : list string) : bool :=
  existsb (λ b, String.eqb (lower (display_name executable)) (lower b)) blocked.

(** Modelled from the spec: [isArgumentBlocked] of utils/validation.js is
    not among the sources. Every argument is tested against every blocked
    pattern; the patterns are taken as literal substrings. *)
Definition argument_blocked (args patterns : list string) : bool :=
  existsb (λ arg, existsb (λ pattern, contains arg pattern) patterns) args.

(** The chaining and substitution operators: sequencing, conditional AND and
    OR, pipe, background execution, command substitution. *)
Definition shell_operators : list string :=
  ["&&"; "||"; ";"; "|"; "&"; "$("; String (ascii_of_nat 96) EmptyString].

Fixpoint operator_outside_quotes (ops : list string) (q : option ascii) (s : string)
    : bool :=
  match s with
  | EmptyString => false
  | String c s' =>
      match q with
      | Some q0 => operator_outside_quotes ops (if Ascii.eqb c q0 then None else q) s'
      | None =>
          if is_quote c then operator_outside_quotes ops (Some c) s'
          else (existsb (JS.startsWith s) ops || operator_outside_quotes ops None s')%bool
      end
  end.

(** Modelled from the spec: [validateShellOperators] of utils/validation.js
    is not among the sources. The raw command is scanned outside quoted
    regions for an operator that the shell profile does not whitelist; a
    hit is an invalid-request error. *)
Definition validate_operators (command : string) (shellConfig : ShellConfig)
    : option exn :=
  let disallowed :=
    List.filter (λ op, negb (bool_decide (op ∈ allowedOperators shellConfig)))
                shell_operators in
  if operator_outside_quotes disallowed None command
  then Some (McpError InvalidRequest "Command contains a disallowed shell operator")
  else None.

#[export] Instance validation : Validation := {|
  validateShellOperators := validate_operators;
  parseCommand := parse;
  isCommandBlocked := command_blocked;
  isArgumentBlocked := argument_blocked;
  extractCommandName := display_name
|}.

End SpecValidation.

(** ** A platform for the examples

    Node on Windows, zod's default messages and the SDK's error text, as far
    as the examples below read them. Every statement that is not an example
    holds for all platforms. *)

Module SamplePlatform.

Fixpoint zeros (n : nat) : string :=
  match n with
  | O => EmptyString
  | S k => "0" ++ zeros k
  end.

Definition pad_left (width : nat) (s : string) : string :=
  zeros (width - String.length s) ++ s.

Definition digits (width : nat) (z : Z) : string := pad_left width (JS.show_int z).

(** [toISOString] for the years 0000 to 9999: the civil date of a day count,
    then the time of day. *)
Definition iso_of_ms (ms : Z) : string :=
  let days := (ms `div` 86400000)%Z in
  let rest := (ms `mod` 86400000)%Z in
  let z := (days + 719468)%Z in
  let era := (z `div` 146097)%Z in
  let doe := (z - era * 146097)%Z in
  let yoe := ((doe - doe `div` 1460 + doe `div` 36524 - doe `div` 146096) `div` 365)%Z in
  let doy := (doe - (365 * yoe + yoe `div` 4 - yoe `div` 100))%Z in
  let mp := ((5 * doy + 2) `div` 153)%Z in
  let d := (doy - (153 * mp + 2) `div` 5 + 1)%Z in
  let m := (if (mp <? 10)%Z then mp + 3 else mp - 9)%Z in
  let y := (yoe + era * 400 + (if (m <=? 2)%Z then 1 else 0))%Z in
  digits 4 y ++ "-" ++ digits 2 m ++ "-" ++ digits 2 d ++ "T"
    ++ digits 2 (rest `div` 3600000) ++ ":"
    ++ digits 2 ((rest `div` 60000) `mod` 60) ++ ":"
    ++ digits 2 ((rest `div` 1000) `mod` 60) ++ "."
    ++ digits 3 (rest `mod` 1000) ++ "Z".

Fixpoint strip_zeros (rev_digits : list ascii) : list ascii :=
  match rev_digits with
  | c :: l => if Ascii.eqb c "0" then strip_zeros l else rev_digits
  | [] => []
  end.

(** The decimal expansion of [n / 2^20], which is finite: what a template
    literal prints for it when it has at most 15 significant digits and is
    not below [1e-6]. *)
Definition megabytes (n : Z) : string :=
  let q := (n `div` 1048576)%Z in
  let r := (n `mod` 1048576)%Z in
  if (r =? 0)%Z then JS.show_int q
  else
    let frac := digits 20 (r * 5 ^ 20)%Z in
    JS.show_int q ++ "."
      ++ string_of_list_ascii (rev (strip_zeros (rev (list_ascii_of_string frac)))).

Definition backslash : string := String (ascii_of_nat 92) EmptyString.

Definition join (dir file : string) : string := dir ++ backslash ++ file.

Fixpoint drop_prefix (p s : string) : option string :=
  match p, s with
  | EmptyString, _ => Some s
  | String a p', String b s' => if Ascii.eqb a b then drop_prefix p' s' else None
  | String _ _, EmptyString => None
  end.

Definition child (dir path : string) : option string := drop_prefix (dir ++ backslash) path.

Definition code_number (c : ErrorCode) : Z :=
  match c with
  | InvalidRequest => (-32600)%Z
  | MethodNotFound => (-32601)%Z
  | InvalidParams => (-32602)%Z
  | InternalError => (-32603)%Z
  end.

Fixpoint join_bar (l : list string) : string :=
  match l with
  | [] => EmptyString
  | [x] => "'" ++ x ++ "'"
  | x :: l' => "'" ++ x ++ "' | " ++ join_bar l'
  end.

Definition zod_message (i : ZodIssue) : string :=
  match i with
  | invalid_enum_value options received =>
      "Invalid enum value. Expected " ++ join_bar options ++ ", received '" ++ received ++ "'"
  | too_small minimum => "Number must be greater than or equal to " ++ JS.show_int minimum
  | too_big maximum => "Number must be less than or equal to " ++ JS.show_int maximum
  end.

Definition message_of (e : exn) : string :=
  match e with
  | McpError code message => "MCP error " ++ JS.show_int (code_number code) ++ ": " ++ message
  | ZodError errors => JS.join_comma (map zod_message errors)
  | Error message => message
  end.

Definition hex_digit (n : nat) : ascii :=
  if (n <? 10)%nat then ascii_of_nat (48 + n) else ascii_of_nat (87 + n).

Definition json_char (c : ascii) : string :=
  let n := nat_of_ascii c in
  if (n =? 34)%nat then backslash ++ JS.dquote
  else if (n =? 92)%nat then backslash ++ backslash
  else if (n =? 10)%nat then backslash ++ "n"
  else if (n =? 13)%nat then backslash ++ "r"
  else if (n =? 9)%nat then backslash ++ "t"
  else if (n =? 8)%nat then backslash ++ "b"
  else if (n =? 12)%nat then backslash ++ "f"
  else if (n <? 32)%nat then
    backslash ++ "u00" ++ String (hex_digit (n / 16)) (String (hex_digit (n mod 16)) EmptyString)
  else String c EmptyString.

Fixpoint json_escape (s : string) : string :=
  match s with
  | EmptyString => EmptyString
  | String c s' => json_char c ++ json_escape s'
  end.

Definition json_string (s : string) : string := JS.dquote ++ json_escape s ++ JS.dquote.

Definition json_field (indent name value : string) : string :=
  indent ++ JS.dquote ++ name ++ JS.dquote ++ ": " ++ value.

Definition json_entry (e : CommandHistoryEntry) : string :=
  "  {" ++ JS.nl
    ++ json_field "    " "command" (json_string (entry_command e)) ++ "," ++ JS.nl
    ++ json_field "    " "output" (json_string (entry_output e)) ++ "," ++ JS.nl
    ++ json_field "    " "timestamp" (json_string (entry_timestamp e)) ++ "," ++ JS.nl
    ++ json_field "    " "exitCode" (JS.show_int (entry_exitCode e))
    ++ match entry_connectionId e with
       | Some c => "," ++ JS.nl ++ json_field "    " "connectionId" (json_string c)
       | None => EmptyString
       end
    ++ JS.nl ++ "  }".

Fixpoint json_entries (l : list CommandHistoryEntry) : string :=
  match l with
  | [] => EmptyString
  | [e] => json_entry e
  | e :: l' => json_entry e ++ "," ++ JS.nl ++ json_entries l'
  end.

Definition json_history (l : list CommandHistoryEntry) : string :=
  match l with
  | [] => "[]"
  | _ => "[" ++ JS.nl ++ json_entries l ++ JS.nl ++ "]"
  end.

#[export] Instance platform : Platform := {|
  path_resolve := λ p, p;
  process_cwd := "C:\work";
  path_join := join;
  os_tmpdir := "C:\Temp";
  entry_name := child;
  toISOString := iso_of_ms;
  show_megabytes := megabytes;
  error_message := message_of;
  issue_message := zod_message;
  JSON_stringify := json_history
|}.

End SamplePlatform.

(** ** Configurations and states used by the examples *)

Module Examples.
Import SpecValidation SamplePlatform.

Definition profile (exe : string) (args : list string) : ShellConfig :=
  {| shell_enabled := true; shell_command := exe; shell_args := args;
     allowedOperators := [] |}.

Definition sample_shells : Shells :=
  {| shells_powershell := profile "powershell.exe" ["-NoProfile"; "-Command"];
     shells_cmd := profile "cmd.exe" ["/c"];
     shells_gitbash := profile "bash.exe" ["-c"] |}.

Definition pi_connection : SSHConnectionConfig :=
  {| ssh_host := "raspberrypi.local"; ssh_port := 22; ssh_username := "pi" |}.

Definition sample_ssh (enabled : bool) : SSHConfig :=
  {| ssh_enabled := enabled; connections := {[ "raspberry-pi" := pi_connection ]} |}.

(** A policy with a blocked executable, a blocked argument pattern, and the
    limits left open. *)
Definition sample_security (maxLength maxHistory maxOutput : Z) (protect spill : bool)
    (dir : option string) : SecurityConfig :=
  {| maxCommandLength := maxLength;
     blockedCommands := ["format"];
     blockedArguments := ["--exec"];
     allowedPaths := ["C:\work"];
     restrictWorkingDirectory := true;
     logCommands := true;
     maxHistorySize := maxHistory;
     commandTimeout := 30;
     enableInjectionProtection := protect;
     maxOutputSize := maxOutput;
     enableOutputFiles := spill;
     outputDirectory := dir;
     outputFileRetentionHours := 24 |}.

Definition sample_config (s : SecurityConfig) (sshOn : bool) : ServerConfig :=
  {| security := s; shells := sample_shells; ssh := sample_ssh sshOn |}.

Definition empty_world : World :=
  {| commandHistory := []; files := ∅; spawn_calls := []; pool_calls := [] |}.

Definition sample_entry (command out : string) : CommandHistoryEntry :=
  {| entry_command := command; entry_output := out;
     entry_timestamp := iso_of_ms 0; entry_exitCode := 0;
     entry_connectionId := None |}.

Definition sample_env (now : Z) (o : SSHOutcome) : Env :=
  {| env_now := now; env_spawn := spawned true true; env_ssh := o; env_close := None |}.

(** Injection protection on, command length limited to 8. *)
Definition strict : ServerConfig :=
  sample_config (sample_security 8 5 10 true false None) true.

(** Injection protection off, command length limited to 8. *)
Definition lenient : ServerConfig :=
  sample_config (sample_security 8 5 10 false false None) true.

Definition ssh_off : ServerConfig :=
  sample_config (sample_security 8 5 10 true false None) false.

(** A history of at most 5 entries, an output cap of 10 characters, no
    spilling. *)
Definition roomy : ServerConfig :=
  sample_config (sample_security 100 5 10 false false None) true.

(** A history of at most 1 entry. *)
Definition capped : ServerConfig :=
  sample_config (sample_security 100 1 10 false false None) true.

(** Spilling on, with and without an output directory. *)
Definition spilling : ServerConfig :=
  sample_config (sample_security 100 5 10 false true (Some "C:\out")) true.


Definition answers : Env := sample_env 0 (execute_returns "ok" 0).

Definition refused : Env :=
  sample_env 1000 (connect_rejects (Error "connect ECONNREFUSED")).

(** The execution that [execute_command] starts for [dir] in [cmd]. *)
Definition started : Exec :=
  {| arg_command := "dir"; arg_shell := "cmd"; workingDir := "C:\work";
     output := EmptyString; error := EmptyString; outputSize := 0;
     truncated := false; outputFilePath := None;
     timeout := {| timer_ms := 30000; timer_status := Armed |};
     kill_calls := 0; promise := Pending |}.

Definition after_spawn : World :=
  {| commandHistory := []; files := ∅;
     spawn_calls := [ {| spawn_file := "cmd.exe"; spawn_args := ["/c"; "dir"];
                         spawn_cwd := "C:\work" |} ];
     pool_calls := [] |}.

(** The execution after eight characters of standard output. *)
Definition accumulated : Exec :=
  set_capture "aaaaaaaa" EmptyString 8 false None started.

Definition spill_file : string := "C:\out\output-2023-11-14T22-13-20-123Z.txt".

Definition three_entries : World :=
  set_history [sample_entry "dir" "a"; sample_entry "ver" "b"; sample_entry "whoami" "c"]
              empty_world.

(** Eight characters of standard error, five of standard output, five more
    of standard error. *)
Definition mixed : list (Z * ProcEvent) :=
  [(1%Z, stderr_data "eeeeeeee"); (2%Z, stdout_data "ooooo"); (3%Z, stderr_data "eeeee")].

End Examples.

(** ** The validator's checks, one by one *)

Section Checks.
Context `{Validation}.
Variable config : ServerConfig.

(** The four checks of the validator, in the order of the specification. *)
Inductive Check := operator_check | executable_check | argument_check | length_check.

Definition rank (c : Check) : nat :=
  match c with
  | operator_check => 0
  | executable_check => 1
  | argument_check => 2
  | length_check => 3
  end.

(** The rejection of one check taken alone, if it fails: what the
    specification says each check tests and answers. *)
Definition rejection (shell : ShellKey) (command : string) (c : Check) : option exn :=
  match c with
  | operator_check =>
      if enableInjectionProtection (security config)
      then validateShellOperators command (shell_config (shells config) shell)
      else None
  | executable_check =>
      match parseCommand command with
      | inr (executable, _) =>
          if isCommandBlocked executable (JS.set_of_array (blockedCommands (security config)))
          then Some (McpError InvalidRequest
                       ("Command is blocked: " ++ JS.dquote
                          ++ extractCommandName executable ++ JS.dquote))
          else None
      | inl _ => None
      end
  | argument_check =>
      match parseCommand command with
      | inr (_, args) =>
          if isArgumentBlocked args (blockedArguments (security config))
          then Some (McpError InvalidRequest
                       "One or more arguments are blocked. Check configuration for blocked patterns.")
          else None
      | inl _ => None
      end
  | length_check =>
      if (maxCommandLength (security config) <? JS.len command)%Z
      then Some (McpError InvalidRequest
                   ("Command exceeds maximum length of "
                      ++ JS.show_int (maxCommandLength (security config))))
      else None
  end.

End Checks.

(** ** Kinds of events and fresh executions *)

(** The events that carry output. *)
Definition is_data (ev : ProcEvent) : bool :=
  match ev with
  | stdout_data _ | stderr_data _ => true
  | _ => false
  end.

Definition data_only (evs : list (Z * ProcEvent)) : Prop :=
  Forall (λ ev, is_data (snd ev) = true) evs.

(** The events that reach the handlers while the process has neither closed
    nor run into the timer: output of either stream and ['error'] events. *)
Definition is_before_end (ev : ProcEvent) : bool :=
  match ev with
  | close _ | timer_fires => false
  | _ => true
  end.

Definition still_running (evs : list (Z * ProcEvent)) : Prop :=
  Forall (λ ev, is_before_end (snd ev) = true) evs.

(** The message of the first ['error'] event among the events, if any. *)
Fixpoint first_error (evs : list (Z * ProcEvent)) : option string :=
  match evs with
  | [] => None
  | (_, process_error message) :: _ => Some message
  | _ :: rest => first_error rest
  end.

(** The rejection the ['error'] handler passes to [reject]. *)
Definition process_error_rejection (message : string) : Promise :=
  Rejected (McpError InternalError ("Shell process error: " ++ message)).

(** The capture variables as the executor initialises them. *)
Definition fresh_capture (x : Exec) : Prop :=
  output x = EmptyString ∧ error x = EmptyString ∧ outputSize x = 0%Z
  ∧ truncated x = false ∧ outputFilePath x = None.

(** ** The specification's wording of the history read and of the capture *)

Section SpecWording.
Context `{Platform}.
Variable config : ServerConfig.

Definition clamp (lo hi v : Z) : Z := Z.max lo (Z.min hi v).

(** [get_command_history] with the limit clamped into
    [1, maxHistorySize], 10 when absent. *)
Definition get_command_history_clamped (limit : option Z) (w : World) : ToolResult :=
  let k := clamp 1 (maxHistorySize (security config)) (default 10%Z limit) in
  text_result (JSON_stringify (map preview (JS.slice_from (- k) (commandHistory w)))).

(** One stream captured on its own: chunks are kept while the stream's own
    total stays within the cap; the first chunk that goes beyond it adds the
    marker, and the stream is closed for further chunks. *)
Fixpoint capture_alone (marker : string) (chunks : list string) (buffer : string)
    (size : Z) : string :=
  match chunks with
  | [] => buffer
  | chunk :: rest =>
      if (size + JS.len chunk <=? maxOutputSize (security config))%Z
      then capture_alone marker rest (buffer ++ chunk) (size + JS.len chunk)
      else buffer ++ marker
  end.

Definition stdout_chunks (evs : list (Z * ProcEvent)) : list string :=
  omap (λ ev, match snd ev with stdout_data chunk => Some chunk | _ => None end) evs.

Definition stderr_chunks (evs : list (Z * ProcEvent)) : list string :=
  omap (λ ev, match snd ev with stderr_data chunk => Some chunk | _ => None end) evs.

(** The shared counter stays within the cap. *)
Definition within_cap (x : Exec) : Prop :=
  (0 <= outputSize x <= maxOutputSize (security config))%Z.

(** The shapes the two buffers can take under the shared counter
    [outputSize] and the shared flag [truncated]: no marker yet; the marker
    in the standard-output buffer only; the marker in the standard-error
    buffer only; the standard-output buffer replaced by the spill notice. *)
Inductive capture_shape (x : Exec) : Prop :=
| shape_clean :
    truncated x = false →
    (JS.len (output x) + JS.len (error x) = outputSize x)%Z →
    capture_shape x
| shape_stdout_marked (a b : string) :
    truncated x = true →
    enableOutputFiles (security config) = false →
    output x = a ++ stdout_marker ++ b →
    (JS.len a + JS.len b + JS.len (error x) = outputSize x)%Z →
    capture_shape x
| shape_stderr_marked (c d : string) :
    truncated x = true →
    error x = c ++ stderr_marker ++ d →
    (JS.len (output x) + JS.len c + JS.len d = outputSize x)%Z →
    capture_shape x
| shape_spilled (filePath : option string) (b : string) :
    truncated x = true →
    enableOutputFiles (security config) = true →
    output x = saved_notice config filePath ++ b →
    (JS.len b + JS.len (error x) <= outputSize x)%Z →
    capture_shape x.

End SpecWording.

(** ** Chunks after an overflow *)

Section Overflow.
Variable config : ServerConfig.

(** The clock reading before which the sweep at [now] removes a file. *)
Definition retention_cutoff (now : Z) : Z :=
  (now - outputFileRetentionHours (security config) * 60 * 60 * 1000)%Z.

(** The text of a list of chunks. *)
Definition concat_chunks (chunks : list string) : string :=
  foldr String.append EmptyString chunks.


End Overflow.

(** ** The budget the two streams share *)

Section SharedBudget.
Context `{Platform}.
Variable config : ServerConfig.

(** The chunk an output event carries. *)
Definition chunk_of (ev : ProcEvent) : string :=
  match ev with
  | stdout_data chunk | stderr_data chunk => chunk
  | _ => EmptyString
  end.

(** The number of characters in the chunks of both streams together. *)
Definition total_len (evs : list (Z * ProcEvent)) : Z :=
  foldr (λ ev n, (JS.len (chunk_of (snd ev)) + n)%Z) 0%Z evs.

(** The events whose chunk fits on top of what has been kept before it,
    [size] characters having been kept at the start: a chunk of either stream
    is kept when the characters kept so far from both streams plus its own
    do not exceed the cap, and is passed over otherwise. *)
Fixpoint accepted (size : Z) (evs : list (Z * ProcEvent)) : list (Z * ProcEvent) :=
  match evs with
  | [] => []
  | ev :: rest =>
      if (size + JS.len (chunk_of (snd ev)) <=? maxOutputSize (security config))%Z
      then ev :: accepted (size + JS.len (chunk_of (snd ev))) rest
      else accepted size rest
  end.

(** The events whose chunk does not fit when it arrives. *)
Fixpoint refused (size : Z) (evs : list (Z * ProcEvent)) : list (Z * ProcEvent) :=
  match evs with
  | [] => []
  | ev :: rest =>
      if (size + JS.len (chunk_of (snd ev)) <=? maxOutputSize (security config))%Z
      then refused (size + JS.len (chunk_of (snd ev))) rest
      else ev :: refused size rest
  end.

(** The path [saveToFile] assigns at clock reading [now], if it assigns
    one. *)
Definition spill_path (now : Z) : option string :=
  match JS.present (outputDirectory (security config)) with
  | Some dir => Some (path_join dir (output_file_name now))
  | None => None
  end.

End SharedBudget.

(** ** [escapeRegex] *)

(** The characters of the class [[-\/\\^$*+?.()|[\]{}]]. *)
Definition regex_special (c : ascii) : bool :=
  existsb (Ascii.eqb c) (list_ascii_of_string "-/\^$*+?.()|[]{}").

(** [CLIServer.escapeRegex]: [text.replace(/[-\/\\^$*+?.()|[\]{}]/g, '\\$&')],
    a backslash before every character of the class. *)
Fixpoint escapeRegex (text : string) : string :=
  match text with
  | EmptyString => EmptyString
  | String c rest =>
      if regex_special c
      then String (ascii_of_nat 92) (String c (escapeRegex rest))
      else String c (escapeRegex rest)
  end.

(** Reading an escaped text back: a backslash stands for the character that
    follows it. Not part of the server; used to state that escaping loses
    nothing. *)
Fixpoint unescape (s : string) : string :=
  match s with
  | EmptyString => EmptyString
  | String c rest =>
      if Ascii.eqb c (ascii_of_nat 92) then
        match rest with
        | EmptyString => String c EmptyString
        | String d rest' => String d (unescape rest')
        end
      else String c (unescape rest)
  end.

(** The number of class characters in a text. *)
Fixpoint count_special (text : string) : nat :=
  match text with
  | EmptyString => 0
  | String c rest => (if regex_special c then 1 else 0) + count_special rest
  end.

(** ** What the sweep needs of [readdirSync] and [path.join] *)

Section PlatformLaws.
Context `{Platform}.

(** An entry listed for a directory, joined to the directory, is the path it
    was listed for. *)
Definition entries_are_paths (dir : string) : Prop :=
  ∀ path name, entry_name dir path = Some name → path_join dir name = path.


(** The working directory of an [execute_command] call: the resolved
    argument, or the server's own directory when the argument is absent or
    empty. *)
Definition resolved_working_dir (dir : option string) : string :=
  match JS.present dir with
  | Some d => path_resolve d
  | None => process_cwd
  end.

(** A path that the sweep considers: an entry of the directory whose name
    begins with [output-]. *)
Definition is_output_entry (dir path : string) : bool :=
  match entry_name dir path with
  | Some name => JS.startsWith name "output-"
  | None => false
  end.

End PlatformLaws.

(** ** Further configurations for the examples *)

Module MoreExamples.
Import SpecValidation SamplePlatform Examples.

Definition with_logging (on : bool) (maxHistory : Z) (s : SecurityConfig) : SecurityConfig :=
  {| maxCommandLength := maxCommandLength s;
     blockedCommands := blockedCommands s;
     blockedArguments := blockedArguments s;
     allowedPaths := allowedPaths s;
     restrictWorkingDirectory := restrictWorkingDirectory s;
     logCommands := on;
     maxHistorySize := maxHistory;
     commandTimeout := commandTimeout s;
     enableInjectionProtection := enableInjectionProtection s;
     maxOutputSize := maxOutputSize s;
     enableOutputFiles := enableOutputFiles s;
     outputDirectory := outputDirectory s;
     outputFileRetentionHours := outputFileRetentionHours s |}.

(** Logging off. *)
Definition quiet : ServerConfig :=
  sample_config (with_logging false 5 (sample_security 100 5 10 false false None)) true.

(** Logging on with a history cap of 0. *)
Definition cap_zero : ServerConfig :=
  sample_config (with_logging true 0 (sample_security 100 5 10 false false None)) true.

(** Only the [cmd] profile enabled. *)
Definition cmd_only : ServerConfig :=
  {| security := sample_security 100 5 10 false false None;
     shells :=
       {| shells_powershell :=
            {| shell_enabled := false; shell_command := "powershell.exe";
               shell_args := ["-Command"]; allowedOperators := [] |};
          shells_cmd := profile "cmd.exe" ["/c"];
          shells_gitbash :=
            {| shell_enabled := false; shell_command := "bash.exe";
               shell_args := ["-c"]; allowedOperators := [] |} |};
     ssh := sample_ssh true |}.

Definition history_of_two : World :=
  set_history [sample_entry "dir" "a"; sample_entry "ver" "b"] empty_world.

(** One old spill file, one recent spill file and a file of another name in
    the output directory, at clock readings in milliseconds. *)
Definition three_files : gmap string File :=
  {[ "C:\out\output-old.txt" := {| file_content := "old"; file_mtime := 1000 |};
     "C:\out\output-new.txt" := {| file_content := "new"; file_mtime := 90000000 |};
     "C:\out\notes.txt" := {| file_content := "keep"; file_mtime := 1000 |} ]}.

End MoreExamples.

(** * Properties *)

(** ** Strings and slices *)

Lemma str_app_cons (ch : ascii) (a b : string) : String ch a ++ b = String ch (a ++ b).
Proof. reflexivity. Qed.

Lemma str_app_assoc (a b c : string) : (a ++ b) ++ c = a ++ (b ++ c).
Proof.
  induction a as [|ch a IH]; [reflexivity|].
  rewrite !str_app_cons. by rewrite IH.
Qed.

Lemma str_app_nil_r (a : string) : a ++ EmptyString = a.
Proof.
  induction a as [|ch a IH]; [reflexivity|].
  rewrite str_app_cons. by rewrite IH.
Qed.

Lemma len_app (a b : string) : JS.len (a ++ b) = (JS.len a + JS.len b)%Z.
Proof.
  unfold JS.len. induction a as [|ch a IH].
  - change (EmptyString ++ b) with b. simpl. lia.
  - rewrite str_app_cons. simpl String.length. lia.
Qed.

Lemma len_nonneg (a : string) : (0 <= JS.len a)%Z.
Proof. unfold JS.len. lia. Qed.

(** A negative start keeps the last [k] elements. *)
Lemma slice_from_last {A} (k : Z) (l : list A) :
  (1 <= k)%Z →
  JS.slice_from (- k) l = drop (List.length l - Z.to_nat k) l.
Proof.
  intros Hk. unfold JS.slice_from.
  assert ((- k <? 0)%Z = true) as -> by (apply Z.ltb_lt; lia).
  f_equal. lia.
Qed.

Lemma slice_from_length {A} (k : Z) (l : list A) :
  (1 <= k)%Z →
  List.length (JS.slice_from (- k) l) = Nat.min (Z.to_nat k) (List.length l).
Proof. intros Hk. rewrite slice_from_last by done. rewrite length_drop. lia. Qed.

(** ** Command validation: the order of the checks *)

Section ValidationOrder.
Context `{Validation}.
Variable config : ServerConfig.

Lemma validateCommand_accepts (shell : ShellKey) (command : string) p :
  parseCommand command = inr p →
  (∀ c, rejection config shell command c = None) →
  validateCommand config shell command = inr tt.
Proof.
  intros Hp Hall.
  pose proof (Hall operator_check) as Ho. pose proof (Hall executable_check) as He.
  pose proof (Hall argument_check) as Ha. pose proof (Hall length_check) as Hl.
  unfold rejection in *. rewrite Hp in He, Ha. destruct p as [executable args].
  unfold validateCommand. rewrite Hp.
  destruct (enableInjectionProtection (security config)).
  - rewrite Ho. simpl. unfold throw_if.
    destruct (isCommandBlocked _ _); [done|]. destruct (isArgumentBlocked _ _); [done|].
    simpl. rewrite Z.gtb_ltb. destruct (_ <? _)%Z; done.
  - simpl. unfold throw_if.
    destruct (isCommandBlocked _ _); [done|]. destruct (isArgumentBlocked _ _); [done|].
    simpl. rewrite Z.gtb_ltb. destruct (_ <? _)%Z; done.
Qed.

(** C7. Validation applies the operator check (only under injection
    protection), then the blocked-executable check, then the
    blocked-argument check, then the length check, and stops at the first
    that fails: for a command that parses, the error thrown is the rejection
    of the earliest failing check. The blocked-executable rejection carries
    the display name of the executable token; the blocked-argument rejection
    is one fixed text, whatever the arguments and the patterns are. *)
Theorem validateCommand_first_failure (shell : ShellKey) (command : string)
    (p : string * list string) (c : Check) (e : exn) :
  parseCommand command = inr p →
  rejection config shell command c = Some e →
  (∀ c', rank c' < rank c → rejection config shell command c' = None) →
  validateCommand config shell command = inl e
  ∧ (c = operator_check → enableInjectionProtection (security config) = true)
  ∧ (c = executable_check →
       e = McpError InvalidRequest
             ("Command is blocked: " ++ JS.dquote ++ extractCommandName (fst p) ++ JS.dquote))
  ∧ (c = argument_check →
       e = McpError InvalidRequest
             "One or more arguments are blocked. Check configuration for blocked patterns.").
Proof.
  intros Hp Hc Hearlier. destruct p as [executable args].
  assert (∀ c', rank c' < rank c → rejection config shell command c' = None) as Hbefore by done.
  unfold validateCommand. rewrite Hp.
  destruct c; simpl in Hc.
  - (* operator *)
    destruct (enableInjectionProtection (security config)) eqn:Hinj; [|done].
    rewrite Hc. simpl. repeat split; done.
  - (* executable *)
    pose proof (Hbefore operator_check ltac:(simpl; lia)) as Ho. simpl in Ho.
    rewrite Hp in Hc.
    destruct (isCommandBlocked _ _) eqn:Hb; [|done]. injection Hc as <-.
    destruct (enableInjectionProtection (security config)); [rewrite Ho|];
      simpl; unfold throw_if; rewrite Hb; simpl; repeat split; done.
  - (* argument *)
    pose proof (Hbefore operator_check ltac:(simpl; lia)) as Ho. simpl in Ho.
    pose proof (Hbefore executable_check ltac:(simpl; lia)) as He. simpl in He.
    rewrite Hp in Hc, He.
    destruct (isCommandBlocked _ _) eqn:Hb; [done|].
    destruct (isArgumentBlocked _ _) eqn:Ha; [|done]. injection Hc as <-.
    destruct (enableInjectionProtection (security config)); [rewrite Ho|];
      simpl; unfold throw_if; rewrite Hb; simpl; rewrite Ha; simpl; repeat split; done.
  - (* length *)
    pose proof (Hbefore operator_check ltac:(simpl; lia)) as Ho. simpl in Ho.
    pose proof (Hbefore executable_check ltac:(simpl; lia)) as He. simpl in He.
    pose proof (Hbefore argument_check ltac:(simpl; lia)) as Ha. simpl in Ha.
    rewrite Hp in He, Ha.
    destruct (isCommandBlocked _ _) eqn:Hb; [done|].
    destruct (isArgumentBlocked _ _) eqn:Hg; [done|].
    destruct (_ <? _)%Z eqn:Hl; [|done]. injection Hc as <-.
    destruct (enableInjectionProtection (security config)); [rewrite Ho|];
      simpl; unfold throw_if; rewrite Hb; simpl; rewrite Hg; simpl;
      rewrite Z.gtb_ltb, Hl; simpl; repeat split; done.
Qed.

End ValidationOrder.

Module ValidationExamples.
Import SpecValidation SamplePlatform Examples.

(** A command that is blocked by name, carries a blocked argument and is too
    long is rejected for its executable. *)
Lemma validateCommand_first_failure_witness :
  validateCommand strict cmd "C:\Windows\FORMAT.EXE c: --exec"
  = inl (McpError InvalidRequest
           ("Command is blocked: " ++ JS.dquote ++ "FORMAT" ++ JS.dquote)).
Proof.
  refine (proj1 (validateCommand_first_failure strict cmd
                   "C:\Windows\FORMAT.EXE c: --exec"
                   ("C:\Windows\FORMAT.EXE", ["c:"; "--exec"])
                   executable_check _ _ _ _)).
  - reflexivity.
  - reflexivity.
  - intros c' Hc'. destruct c'; simpl in Hc'; try lia. reflexivity.
Defined.

(** Under injection protection the operator check comes first. *)
Example operator_before_executable :
  validateCommand strict cmd "format c: && dir"
  = inl (McpError InvalidRequest "Command contains a disallowed shell operator").
Proof. reflexivity. Qed.

Example quoted_operator_passes :
  validateCommand strict cmd "dir 'a&'" = inr tt.
Proof. reflexivity. Qed.

Example argument_before_length :
  validateCommand strict cmd "run --exec now"
  = inl (McpError InvalidRequest
           "One or more arguments are blocked. Check configuration for blocked patterns.").
Proof. reflexivity. Qed.

Example length_last :
  validateCommand strict cmd "echo hello world"
  = inl (McpError InvalidRequest "Command exceeds maximum length of 8").
Proof. reflexivity. Qed.

End ValidationExamples.

(** ** The tool handlers and the policy *)

Lemma connection_lookup_own (conns : gmap string SSHConnectionConfig) (id : string)
    (c : SSHConnectionConfig) :
  conns !! id = Some c → connection_lookup conns id = Some (own_connection c).
Proof. intros Hc. unfold connection_lookup. by rewrite Hc. Qed.

Section HandlerProperties.
Context `{Validation} `{Platform}.

Lemma rethrow_mcp {A} (code : ErrorCode) (message : string) :
  rethrow (A := A) (inl (McpError code message)) = inl (McpError code message).
Proof. reflexivity. Qed.

(** The validator reads the policy and the one profile it is given. *)
Lemma validateCommand_ext (config config' : ServerConfig) (shell : ShellKey)
    (command : string) :
  security config' = security config →
  shell_config (shells config') shell = shell_config (shells config) shell →
  validateCommand config' shell command = validateCommand config shell command.
Proof.
  intros Hs Hp. unfold validateCommand, too_long_message. by rewrite Hs, Hp.
Qed.

(** A command that the validator rejects with an [McpError] makes
    [execute_command] throw that very error, with the server state and its
    surroundings untouched: nothing is spawned and nothing is logged. *)
Lemma execute_command_policy_violation (config : ServerConfig) (shell command : string)
    (dir : option string) (shellKey : ShellKey) (code : ErrorCode) (message : string)
    (e : Env) (w : World) :
  parse_shell config shell = inr shellKey →
  validateCommand config shellKey command = inl (McpError code message) →
  call_tool config (execute_command shell command dir) e w
  = (Settled (inl (McpError code message)), w).
Proof.
  intros Hs Hv. unfold call_tool, execute_command_checks. rewrite Hs. simpl.
  rewrite Hv. reflexivity.
Qed.

(** The [catch] of [ssh_execute] also receives what the validator throws. *)
Lemma ssh_execute_validation_caught (config : ServerConfig) (connectionId command : string)
    (connectionConfig : SSHConnectionConfig) (err : exn) (e : Env) (w : World) :
  ssh_enabled (ssh config) = true →
  connections (ssh config) !! connectionId = Some connectionConfig →
  validateCommand config cmd command = inl err →
  call_tool config (ssh_execute connectionId command) e w
  = (Settled (inl (McpError InternalError ("SSH error: " ++ error_message err))),
     log_untrimmed config
       {| entry_command := command;
          entry_output := "SSH error: " ++ error_message err;
          entry_timestamp := toISOString (env_now e);
          entry_exitCode := (-1)%Z;
          entry_connectionId := Some connectionId |} w).
Proof.
  intros Hon Hc Hv. unfold call_tool, ssh_execute_handler, ssh_execute_try.
  rewrite Hon, (connection_lookup_own _ _ _ Hc), Hv. reflexivity.
Qed.

Lemma pool_calls_log_untrimmed (config : ServerConfig) (entry : CommandHistoryEntry)
    (w : World) :
  pool_calls (log_untrimmed config entry w) = pool_calls w.
Proof. unfold log_untrimmed. by destruct (logCommands _). Qed.

Lemma pool_calls_log_trimmed (config : ServerConfig) (entry : CommandHistoryEntry)
    (w : World) :
  pool_calls (log_trimmed config entry w) = pool_calls w.
Proof.
  unfold log_trimmed, history_trim. destruct (logCommands _); [|done].
  by destruct (_ >? _)%Z.
Qed.

(** C8. [ssh_execute] validates the remote command as [validateCommand]
    does for the [cmd] profile, whatever connection is addressed: a
    rejection by the operator rules of the [cmd] profile, or by any other
    check run for [cmd], ends the call before the session pool is called; a
    command that passes reaches the pool; and the profiles of the other
    shells have no influence on the call. *)
Theorem ssh_execute_validates_as_cmd (config : ServerConfig)
    (connectionId command : string) (connectionConfig : SSHConnectionConfig)
    (e : Env) (w : World) :
  ssh_enabled (ssh config) = true →
  connections (ssh config) !! connectionId = Some connectionConfig →
  (∀ err, enableInjectionProtection (security config) = true →
     validateShellOperators command (shells_cmd (shells config)) = Some err →
     fst (call_tool config (ssh_execute connectionId command) e w)
     = Settled (inl (McpError InternalError ("SSH error: " ++ error_message err)))
     ∧ pool_calls (snd (call_tool config (ssh_execute connectionId command) e w))
       = pool_calls w)
  ∧ (∀ err, validateCommand config cmd command = inl err →
     fst (call_tool config (ssh_execute connectionId command) e w)
     = Settled (inl (McpError InternalError ("SSH error: " ++ error_message err)))
     ∧ pool_calls (snd (call_tool config (ssh_execute connectionId command) e w))
       = pool_calls w)
  ∧ (validateCommand config cmd command = inr tt →
     ∃ rest,
       pool_calls (snd (call_tool config (ssh_execute connectionId command) e w))
       = (pool_calls w ++ getConnection connectionId connectionConfig :: rest)%list)
  ∧ (∀ config',
     security config' = security config →
     ssh config' = ssh config →
     shells_cmd (shells config') = shells_cmd (shells config) →
     call_tool config' (ssh_execute connectionId command) e w
     = call_tool config (ssh_execute connectionId command) e w).
Proof.
  intros Hon Hc.
  assert (∀ err, validateCommand config cmd command = inl err →
     fst (call_tool config (ssh_execute connectionId command) e w)
     = Settled (inl (McpError InternalError ("SSH error: " ++ error_message err)))
     ∧ pool_calls (snd (call_tool config (ssh_execute connectionId command) e w))
       = pool_calls w) as Hrej.
  { intros err Hv.
    rewrite (ssh_execute_validation_caught _ _ _ _ _ _ _ Hon Hc Hv). simpl.
    split; [done | apply pool_calls_log_untrimmed]. }
  split; [|split; [exact Hrej|split]].
  - intros err Hinj Hop. apply Hrej.
    unfold validateCommand. rewrite Hinj. simpl. by rewrite Hop.
  - intros Hv. unfold call_tool, ssh_execute_handler, ssh_execute_try.
    rewrite Hon, (connection_lookup_own _ _ _ Hc), Hv. simpl.
    destruct (env_ssh e) as [err|err|out exitCode]; simpl.
    + exists []. rewrite pool_calls_log_untrimmed. reflexivity.
    + exists [executeCommand connectionId command].
      rewrite pool_calls_log_untrimmed. simpl. by rewrite <- app_assoc.
    + exists [executeCommand connectionId command].
      rewrite pool_calls_log_trimmed. simpl. by rewrite <- app_assoc.
  - intros config' Hs Hssh Hcmd.
    unfold call_tool, ssh_execute_handler, ssh_execute_try.
    rewrite (validateCommand_ext config config' cmd command Hs Hcmd).
    unfold log_untrimmed, log_trimmed, history_trim. by rewrite Hs, Hssh.
Qed.

(** C10. While SSH support is disabled, [ssh_disconnect] throws an
    invalid-request error and leaves everything as it was; in particular no
    call reaches the session pool. *)
Theorem ssh_disconnect_disabled (config : ServerConfig) (connectionId : string)
    (e : Env) (w : World) :
  ssh_enabled (ssh config) = false →
  call_tool config (ssh_disconnect connectionId) e w
  = (Settled (inl (McpError InvalidRequest "SSH support is disabled in configuration")), w).
Proof.
  intros Hoff. unfold call_tool, ssh_disconnect_handler. by rewrite Hoff.
Qed.

End HandlerProperties.

Module HandlerExamples.
Import SpecValidation SamplePlatform Examples.

Lemma ssh_execute_validates_as_cmd_witness :
  fst (call_tool strict (ssh_execute "raspberry-pi" "dir|x") answers empty_world)
  = Settled (inl (McpError InternalError
       ("SSH error: "
          ++ message_of (McpError InvalidRequest "Command contains a disallowed shell operator"))))
  ∧ pool_calls (snd (call_tool strict (ssh_execute "raspberry-pi" "dir|x") answers empty_world))
    = [].
Proof.
  refine (proj1 (ssh_execute_validates_as_cmd strict "raspberry-pi" "dir|x"
                   pi_connection answers empty_world _ _)
                (McpError InvalidRequest "Command contains a disallowed shell operator")
                _ _); reflexivity.
Defined.

Lemma ssh_disconnect_disabled_witness :
  call_tool ssh_off (ssh_disconnect "raspberry-pi") answers empty_world
  = (Settled (inl (McpError InvalidRequest "SSH support is disabled in configuration")),
     empty_world).
Proof. apply (ssh_disconnect_disabled ssh_off); reflexivity. Defined.

(** The local path rejects the over-long command with the validator's own
    error and changes nothing. *)
Example execute_command_too_long :
  call_tool lenient (execute_command "cmd" "echo hello world" None) answers empty_world
  = (Settled (inl (McpError InvalidRequest "Command exceeds maximum length of 8")),
     empty_world).
Proof. reflexivity. Qed.

End HandlerExamples.

(** C1. The statement does not hold for [ssh_execute]: for a configured
    connection and the command [echo hello world] under a length limit of 8,
    the validator
    throws its invalid-request error, but the handler's [catch] turns it into
    an internal error with the SSH prefix and, logging being on, appends a
    history entry. No process is spawned and the session pool is not
    called. *)
Theorem ssh_execute_policy_violation_is_logged (P : Platform) :
  let config := Examples.lenient in
  let command := "echo hello world" in
  let violation := McpError InvalidRequest "Command exceeds maximum length of 8" in
  validateCommand (H := SpecValidation.validation) config cmd command = inl violation
  ∧ call_tool (H := SpecValidation.validation) config
      (ssh_execute "raspberry-pi" command) Examples.answers Examples.empty_world
    = (Settled (inl (McpError InternalError ("SSH error: " ++ error_message violation))),
       {| commandHistory :=
            [ {| entry_command := command;
                 entry_output := "SSH error: " ++ error_message violation;
                 entry_timestamp := toISOString 0;
                 entry_exitCode := (-1)%Z;
                 entry_connectionId := Some "raspberry-pi" |} ];
          files := ∅; spawn_calls := []; pool_calls := [] |}).
Proof. split; reflexivity. Qed.

(** ** The command history *)

Section HistoryProperties.
Variable config : ServerConfig.

Lemma history_trim_eq (w : World) :
  commandHistory (history_trim config w)
  = if (Z.of_nat (List.length (commandHistory w)) >? maxHistorySize (security config))%Z
    then JS.slice_from (- maxHistorySize (security config)) (commandHistory w)
    else commandHistory w.
Proof. unfold history_trim. by destruct (_ >? _)%Z. Qed.

(** Where the trim runs, the history ends up within the cap and holds the
    most recent entries in order. *)
Lemma log_trimmed_recent (entry : CommandHistoryEntry) (w : World) :
  logCommands (security config) = true →
  (1 <= maxHistorySize (security config))%Z →
  let h := (commandHistory w ++ [entry])%list in
  commandHistory (log_trimmed config entry w)
  = drop (List.length h - Z.to_nat (maxHistorySize (security config))) h
  ∧ (Z.of_nat (List.length (commandHistory (log_trimmed config entry w)))
     <= maxHistorySize (security config))%Z.
Proof.
  intros Hlog Hm h. unfold log_trimmed. rewrite Hlog, history_trim_eq.
  change (commandHistory (history_push entry w)) with h.
  destruct (_ >? _)%Z eqn:Hgt.
  - rewrite slice_from_last by done. split; [done|].
    rewrite length_drop. lia.
  - rewrite Z.gtb_ltb in Hgt. apply Z.ltb_ge in Hgt.
    replace (List.length h - Z.to_nat (maxHistorySize (security config))) with 0 by lia.
    rewrite drop_0. split; [done | lia].
Qed.

Lemma log_untrimmed_history (entry : CommandHistoryEntry) (w : World) :
  logCommands (security config) = true →
  commandHistory (log_untrimmed config entry w) = (commandHistory w ++ [entry])%list.
Proof. intros Hlog. unfold log_untrimmed. by rewrite Hlog. Qed.

End HistoryProperties.

(** ** The timer, the close event and the promise *)

Section RaceProperties.
Context `{Validation} `{Platform}.
Variable config : ServerConfig.

(** What an output event leaves alone. *)
Lemma exec_step_data_frame (now : Z) (ev : ProcEvent) (x : Exec) (w : World) :
  is_data ev = true →
  let s := exec_step config now ev (x, w) in
  commandHistory (snd s) = commandHistory w
  ∧ timeout (fst s) = timeout x
  ∧ kill_calls (fst s) = kill_calls x
  ∧ promise (fst s) = promise x
  ∧ arg_command (fst s) = arg_command x.
Proof.
  intros Hd. destruct ev as [chunk|chunk| | |]; try discriminate; simpl.
  - unfold on_stdout, saveToFile.
    repeat (case_match; simplify_eq/=; try done).
  - unfold on_stderr. repeat (case_match; simplify_eq/=; try done).
Qed.

Lemma exec_run_cons (now : Z) (ev : ProcEvent) (evs : list (Z * ProcEvent))
    (s : Exec * World) :
  exec_run config ((now, ev) :: evs) s = exec_run config evs (exec_step config now ev s).
Proof. reflexivity. Qed.

Lemma exec_run_data_frame (evs : list (Z * ProcEvent)) (x : Exec) (w : World) :
  data_only evs →
  let s := exec_run config evs (x, w) in
  commandHistory (snd s) = commandHistory w
  ∧ timeout (fst s) = timeout x
  ∧ kill_calls (fst s) = kill_calls x
  ∧ promise (fst s) = promise x
  ∧ arg_command (fst s) = arg_command x.
Proof.
  intros Hd. revert x w. induction Hd as [|[now ev] evs Hev _ IH]; intros x w.
  - simpl. done.
  - cbv zeta. rewrite exec_run_cons.
    pose proof (exec_step_data_frame now ev x w Hev) as Hf. cbv zeta in Hf.
    destruct (exec_step config now ev (x, w)) as [x1 w1].
    simpl in Hf. destruct Hf as (Hh & Ht & Hk & Hp & Ha).
    specialize (IH x1 w1). cbv zeta in IH.
    destruct IH as (Hh' & Ht' & Hk' & Hp' & Ha').
    rewrite Hh', Ht', Hk', Hp', Ha'. done.
Qed.

Lemma exec_run_app (evs evs' : list (Z * ProcEvent)) (s : Exec * World) :
  exec_run config (evs ++ evs')%list s = exec_run config evs' (exec_run config evs s).
Proof. unfold exec_run. apply foldl_app. Qed.

Lemma on_close_history (now : Z) (code : option Z) (x : Exec) (w : World) :
  commandHistory (snd (exec_step config now (close code) (x, w)))
  = commandHistory
      (log_trimmed config
         {| entry_command := arg_command x;
            entry_output := resultMessage config code x;
            entry_timestamp := toISOString now;
            entry_exitCode := JS.code_or_minus1 code;
            entry_connectionId := None |} w).
Proof. reflexivity. Qed.

Lemma log_trimmed_history_only (entry : CommandHistoryEntry) (w w' : World) :
  commandHistory w = commandHistory w' →
  commandHistory (log_trimmed config entry w) = commandHistory (log_trimmed config entry w').
Proof.
  intros Hh. unfold log_trimmed. destruct (logCommands _); [|done].
  rewrite !history_trim_eq. simpl. by rewrite Hh.
Qed.

(** C9. When the timer fires on a running execution with logging on, the
    timeout handler appends an entry with exit code -1 and the timeout
    message; when the close event of the killed process arrives afterwards
    (output events may lie in between), the close handler appends a second
    entry for the same command with the process's result message, and then
    trims. With room for both in the history, both are its last entries. *)
Theorem timeout_then_close_logs_twice (x : Exec) (w : World) (t1 t2 : Z)
    (ds : list (Z * ProcEvent)) (code : option Z) :
  logCommands (security config) = true →
  timer_status (timeout x) = Armed →
  data_only ds →
  let s1 := exec_step config t1 timer_fires (x, w) in
  let s2 := exec_run config ds s1 in
  let s3 := exec_step config t2 (close code) s2 in
  let timeoutEntry :=
    {| entry_command := arg_command x;
       entry_output := timeoutMessage config;
       entry_timestamp := toISOString t1;
       entry_exitCode := (-1)%Z;
       entry_connectionId := None |} in
  let closeEntry :=
    {| entry_command := arg_command x;
       entry_output := resultMessage config code (fst s2);
       entry_timestamp := toISOString t2;
       entry_exitCode := JS.code_or_minus1 code;
       entry_connectionId := None |} in
  commandHistory (snd s1) = (commandHistory w ++ [timeoutEntry])%list
  ∧ commandHistory (snd s3)
    = commandHistory
        (history_trim config
           (set_history (commandHistory w ++ [timeoutEntry; closeEntry])%list w))
  ∧ ((Z.of_nat (List.length (commandHistory w)) + 2 <= maxHistorySize (security config))%Z →
     commandHistory (snd s3) = (commandHistory w ++ [timeoutEntry; closeEntry])%list).
Proof.
  intros Hlog Harmed Hds s1 s2 s3 timeoutEntry closeEntry.
  assert (commandHistory (snd s1) = (commandHistory w ++ [timeoutEntry])%list
          ∧ arg_command (fst s1) = arg_command x) as [H1 Ha1].
  { subst s1. simpl. rewrite Harmed. simpl.
    split; [|done]. by rewrite log_untrimmed_history. }
  assert (commandHistory (snd s2) = (commandHistory w ++ [timeoutEntry])%list
          ∧ arg_command (fst s2) = arg_command x) as [H2 Ha2].
  { subst s2. destruct s1 as [x1 w1].
    pose proof (exec_run_data_frame ds x1 w1 Hds) as Hf. cbv zeta in Hf.
    destruct Hf as (Hh & _ & _ & _ & Ha). simpl in H1, Ha1. by rewrite Hh, Ha. }
  assert (commandHistory (snd s3)
          = commandHistory
              (history_trim config
                 (set_history (commandHistory w ++ [timeoutEntry; closeEntry])%list w)))
    as H3.
  { subst s3. destruct s2 as [x2 w2] eqn:Es2. rewrite on_close_history.
    simpl in H2, Ha2. unfold log_trimmed. rewrite Hlog, !history_trim_eq. simpl.
    rewrite H2, Ha2. subst closeEntry. simpl.
    by rewrite <- app_assoc. }
  split; [exact H1|]. split; [exact H3|].
  intros Hroom. rewrite H3, history_trim_eq. simpl.
  rewrite length_app. simpl.
  assert ((Z.of_nat (List.length (commandHistory w) + 2)
             >? maxHistorySize (security config))%Z = false) as ->; [|done].
  rewrite Z.gtb_ltb. apply Z.ltb_ge. lia.
Qed.

(** A fresh execution as [execute_command] leaves it. *)
Lemma call_tool_running (shell command : string) (dir : option string)
    (e : Env) (w w0 : World) (x0 : Exec) :
  call_tool config (execute_command shell command dir) e w = (Running x0, w0) →
  timeout x0 = {| timer_ms := (commandTimeout (security config) * 1000)%Z;
                  timer_status := Armed |}
  ∧ promise x0 = Pending ∧ kill_calls x0 = 0 ∧ fresh_capture x0
  ∧ arg_command x0 = command.
Proof.
  unfold call_tool. destruct (rethrow _) as [err|[shellKey workingDir]]; [done|].
  unfold execute_command_spawn.
  destruct (env_spawn e) as [message|has_stdout has_stderr]; [done|].
  destruct (negb has_stdout || negb has_stderr)%bool; [done|].
  intros [= <- <-]. repeat split.
Qed.

(** Once the promise is settled and the timer is no longer armed, no event
    changes the promise, the timer's status or the number of kills. *)
Lemma settled_stable (now : Z) (ev : ProcEvent) (x : Exec) (w : World) :
  timer_status (timeout x) ≠ Armed →
  promise x ≠ Pending →
  let s := exec_step config now ev (x, w) in
  timer_status (timeout (fst s)) ≠ Armed
  ∧ promise (fst s) = promise x
  ∧ kill_calls (fst s) = kill_calls x.
Proof.
  intros Ht Hp. destruct ev as [chunk|chunk|code|message|].
  - pose proof (exec_step_data_frame now (stdout_data chunk) x w eq_refl) as Hf.
    cbv zeta in Hf |- *. destruct Hf as (_ & -> & -> & -> & _). done.
  - pose proof (exec_step_data_frame now (stderr_data chunk) x w eq_refl) as Hf.
    cbv zeta in Hf |- *. destruct Hf as (_ & -> & -> & -> & _). done.
  - simpl. unfold clearTimeout.
    destruct (timer_status (timeout x)) eqn:E; [done| |];
      (split; [by rewrite E|]); destruct (promise x); done.
  - simpl. destruct (promise x); done.
  - simpl. destruct (timer_status (timeout x)) eqn:E; [done| |]; simpl; by rewrite E.
Qed.

Lemma settled_stable_run (evs : list (Z * ProcEvent)) (x : Exec) (w : World) :
  timer_status (timeout x) ≠ Armed →
  promise x ≠ Pending →
  let s := exec_run config evs (x, w) in
  promise (fst s) = promise x ∧ kill_calls (fst s) = kill_calls x.
Proof.
  revert x w. induction evs as [|[now ev] evs IH]; intros x w Ht Hp; [done|].
  cbv zeta. rewrite exec_run_cons.
  pose proof (settled_stable now ev x w Ht Hp) as Hs. cbv zeta in Hs.
  destruct (exec_step config now ev (x, w)) as [x1 w1]. simpl in Hs.
  destruct Hs as (Ht1 & Hp1 & Hk1).
  assert (promise x1 ≠ Pending) as Hp1' by (by rewrite Hp1).
  specialize (IH x1 w1 Ht1 Hp1'). cbv zeta in IH. destruct IH as [-> ->].
  by rewrite Hp1, Hk1.
Qed.

(** A settled promise is not settled again. *)
Lemma reject_settled (e1 e2 : exn) (p : Promise) : reject e2 (reject e1 p) = reject e1 p.
Proof. by destruct p. Qed.

(** While the process neither closes nor runs into the timer, the timer and
    the number of kills stay as they are, and the promise is rejected by the
    first ['error'] event, if there is one. *)
Lemma exec_run_still_running (evs : list (Z * ProcEvent)) (x : Exec) (w : World) :
  still_running evs →
  let s := exec_run config evs (x, w) in
  timeout (fst s) = timeout x
  ∧ kill_calls (fst s) = kill_calls x
  ∧ promise (fst s)
    = match first_error evs with
      | Some message =>
          reject (McpError InternalError ("Shell process error: " ++ message)) (promise x)
      | None => promise x
      end.
Proof.
  intros Hr. revert x w. induction Hr as [|[now ev] evs Hev _ IH]; intros x w; [done|].
  cbv zeta. rewrite exec_run_cons.
  destruct ev as [chunk|chunk|code|message|]; try discriminate.
  - pose proof (exec_step_data_frame now (stdout_data chunk) x w eq_refl) as Hf.
    cbv zeta in Hf. destruct (exec_step config now (stdout_data chunk) (x, w)) as [x1 w1].
    simpl in Hf. destruct Hf as (_ & Ht & Hk & Hp & _).
    specialize (IH x1 w1). cbv zeta in IH. destruct IH as (-> & -> & ->).
    simpl first_error. by rewrite Ht, Hk, Hp.
  - pose proof (exec_step_data_frame now (stderr_data chunk) x w eq_refl) as Hf.
    cbv zeta in Hf. destruct (exec_step config now (stderr_data chunk) (x, w)) as [x1 w1].
    simpl in Hf. destruct Hf as (_ & Ht & Hk & Hp & _).
    specialize (IH x1 w1). cbv zeta in IH. destruct IH as (-> & -> & ->).
    simpl first_error. by rewrite Ht, Hk, Hp.
  - simpl exec_step. unfold on_error.
    match goal with
    | |- context [exec_run config evs (?x1, ?w1)] => specialize (IH x1 w1)
    end.
    cbv zeta in IH. destruct IH as (-> & -> & ->). simpl.
    split; [done|]. split; [done|].
    destruct (first_error evs); [apply reject_settled | done].
Qed.

(** Once the promise is settled and the timer is cleared, no event changes
    the promise, the timer or the number of kills. *)
Lemma cleared_stable_run (evs : list (Z * ProcEvent)) (x : Exec) (w : World) :
  timer_status (timeout x) = Cleared →
  promise x ≠ Pending →
  let s := exec_run config evs (x, w) in
  timer_status (timeout (fst s)) = Cleared
  ∧ promise (fst s) = promise x
  ∧ kill_calls (fst s) = kill_calls x.
Proof.
  revert x w. induction evs as [|[now ev] evs IH]; intros x w Ht Hp; [done|].
  cbv zeta. rewrite exec_run_cons.
  assert (timer_status (timeout (fst (exec_step config now ev (x, w)))) = Cleared
          ∧ promise (fst (exec_step config now ev (x, w))) = promise x
          ∧ kill_calls (fst (exec_step config now ev (x, w))) = kill_calls x)
    as (Ht1 & Hp1 & Hk1).
  { destruct ev as [chunk|chunk|code|message|].
    - pose proof (exec_step_data_frame now (stdout_data chunk) x w eq_refl) as Hf.
      cbv zeta in Hf. destruct Hf as (_ & -> & -> & -> & _). done.
    - pose proof (exec_step_data_frame now (stderr_data chunk) x w eq_refl) as Hf.
      cbv zeta in Hf. destruct Hf as (_ & -> & -> & -> & _). done.
    - simpl. unfold clearTimeout. rewrite Ht. split; [done|]. by destruct (promise x).
    - simpl. by destruct (promise x).
    - simpl. by rewrite Ht. }
  destruct (exec_step config now ev (x, w)) as [x1 w1]. simpl in Ht1, Hp1, Hk1.
  assert (promise x1 ≠ Pending) as Hp1' by (by rewrite Hp1).
  specialize (IH x1 w1 Ht1 Hp1'). cbv zeta in IH. destruct IH as (-> & -> & ->).
  by rewrite Hp1, Hk1.
Qed.

(** C4. An execution that [execute_command] has started carries a timer of
    the configured timeout (in milliseconds), armed while the process has
    neither closed nor run into it. Whatever output and ['error'] events
    arrive first: if the timer fires before the process closes, the process
    is killed once, and the call's promise is rejected - with the timeout
    error if no ['error'] event came before the timer, with the process error
    of the first such event otherwise - and stays so whatever arrives later,
    a close event included. If the process closes first, the promise is
    resolved with the close handler's result, unless an ['error'] event had
    already rejected it; the timer is cleared, no kill is issued, and nothing
    that arrives later, the timer's event included, changes that. *)
Theorem timeout_close_race (shell command : string) (dir : option string)
    (e : Env) (w w0 : World) (x0 : Exec) (pre : list (Z * ProcEvent)) :
  call_tool config (execute_command shell command dir) e w = (Running x0, w0) →
  still_running pre →
  timeout x0 = {| timer_ms := (commandTimeout (security config) * 1000)%Z;
                  timer_status := Armed |}
  ∧ timer_status (timeout (fst (exec_run config pre (x0, w0)))) = Armed
  ∧ (∀ t rest,
       let s := exec_run config (pre ++ (t, timer_fires) :: rest)%list (x0, w0) in
       promise (fst s)
       = match first_error pre with
         | Some message => process_error_rejection message
         | None => Rejected (McpError InternalError (timeoutMessage config))
         end
       ∧ kill_calls (fst s) = 1)
  ∧ (∀ t code rest,
       let before := exec_run config pre (x0, w0) in
       let closed := exec_run config (pre ++ [(t, close code)])%list (x0, w0) in
       let s := exec_run config (pre ++ (t, close code) :: rest)%list (x0, w0) in
       match first_error pre with
       | Some message => promise (fst s) = process_error_rejection message
       | None =>
           ∃ r, promise (fst s) = Resolved r
                ∧ content_text r = resultMessage config code (fst before)
                ∧ isError r = Some (negb (is_zero code))
       end
       ∧ timer_status (timeout (fst s)) = Cleared
       ∧ kill_calls (fst s) = 0
       ∧ ∀ t', exec_step config t' timer_fires closed = closed).
Proof.
  intros Hstart Hpre.
  destruct (call_tool_running _ _ _ _ _ _ _ Hstart) as (Ht0 & Hp0 & Hk0 & _ & _).
  pose proof (exec_run_still_running pre x0 w0 Hpre) as Hf. cbv zeta in Hf.
  destruct Hf as (Ht & Hk & Hp). rewrite Hp0 in Hp. rewrite Ht0 in Ht. rewrite Hk0 in Hk.
  split; [exact Ht0|]. split; [by rewrite Ht|]. split.
  - intros t rest. cbv zeta. rewrite exec_run_app, exec_run_cons.
    destruct (exec_run config pre (x0, w0)) as [x1 w1]. simpl in Ht, Hk, Hp.
    destruct (exec_step config t timer_fires (x1, w1)) as [x2 w2] eqn:Es.
    simpl in Es. rewrite Ht in Es. simpl in Es. unfold on_timeout in Es.
    injection Es as <- <-.
    match goal with
    | |- context [exec_run config rest (?x, ?w)] =>
        pose proof (settled_stable_run rest x w) as Hst
    end.
    cbv zeta in Hst. destruct Hst as [-> ->]; simpl.
    + done.
    + rewrite Hp. by destruct (first_error pre).
    + rewrite Hp, Hk. by destruct (first_error pre).
  - intros t code rest. cbv zeta.
    rewrite !exec_run_app, !exec_run_cons.
    destruct (exec_run config pre (x0, w0)) as [x1 w1]. simpl in Ht, Hk, Hp.
    change (exec_run config [] (exec_step config t (close code) (x1, w1)))
      with (exec_step config t (close code) (x1, w1)).
    destruct (exec_step config t (close code) (x1, w1)) as [x2 w2] eqn:Es.
    assert (timer_status (timeout x2) = Cleared
            ∧ kill_calls x2 = 0
            ∧ promise x2
              = resolve {| content_text := resultMessage config code x1;
                           isError := Some (negb (is_zero code));
                           metadata := Some {| meta_exitCode := JS.code_or_minus1 code;
                                               meta_shell := Some (arg_shell x1);
                                               meta_workingDirectory := Some (workingDir x1);
                                               meta_connectionId := None |} |}
                        (promise x1)) as (Ht2 & Hk2 & Hp2).
    { simpl in Es. unfold on_close in Es. injection Es as <- <-. simpl.
      unfold clearTimeout. rewrite Ht. simpl. by rewrite Hk. }
    assert (promise x2 ≠ Pending) as Hset.
    { rewrite Hp2, Hp. by destruct (first_error pre). }
    pose proof (cleared_stable_run rest x2 w2 Ht2 Hset) as Hst. cbv zeta in Hst.
    destruct Hst as (-> & -> & ->).
    split; [|split; [done|split; [done|]]].
    + rewrite Hp2, Hp. destruct (first_error pre); [done|].
      simpl. eexists. repeat split.
    + intros t'. simpl. by rewrite Ht2.
Qed.

End RaceProperties.

Module RaceExamples.
Import SpecValidation SamplePlatform Examples.

Example execute_command_starts :
  call_tool roomy (execute_command "cmd" "dir" None) answers empty_world
  = (Running started, after_spawn).
Proof. reflexivity. Qed.

Lemma timeout_close_race_witness :
  let s := exec_run roomy
             ([(10%Z, stdout_data "abc")] ++ [(30000%Z, timer_fires); (30001%Z, close None)])%list
             (started, after_spawn) in
  promise (fst s) = Rejected (McpError InternalError (timeoutMessage roomy))
  ∧ kill_calls (fst s) = 1.
Proof.
  refine (proj1 (proj2 (proj2 (timeout_close_race roomy "cmd" "dir" None answers empty_world
                                 after_spawn started [(10%Z, stdout_data "abc")] _ _)))
                30000%Z [(30001%Z, close None)]).
  - reflexivity.
  - repeat constructor.
Defined.

(** An ['error'] event of the process before the timer: the timer still
    fires and kills the process, but the call has already been rejected with
    the process error, and that is its result, not the timeout. *)
Lemma process_error_before_timeout :
  let s := exec_run roomy [(10%Z, process_error "write EPIPE"); (30000%Z, timer_fires)]
                    (started, after_spawn) in
  call_tool roomy (execute_command "cmd" "dir" None) answers empty_world
  = (Running started, after_spawn)
  ∧ timer_status (timeout (fst (exec_run roomy [(10%Z, process_error "write EPIPE")]
                                         (started, after_spawn)))) = Armed
  ∧ kill_calls (fst s) = 1
  ∧ promise (fst s)
    = Rejected (McpError InternalError "Shell process error: write EPIPE")
  ∧ promise (fst s) ≠ Rejected (McpError InternalError (timeoutMessage roomy)).
Proof. repeat split. discriminate. Qed.

Lemma timeout_then_close_logs_twice_witness :
  commandHistory
    (snd (exec_step roomy 30001%Z (close None)
            (exec_run roomy [(10%Z, stdout_data "abc")]
               (exec_step roomy 30000%Z timer_fires (started, after_spawn)))))
  = [ {| entry_command := "dir";
         entry_output := timeoutMessage roomy;
         entry_timestamp := iso_of_ms 30000;
         entry_exitCode := (-1)%Z;
         entry_connectionId := None |};
      {| entry_command := "dir";
         entry_output :=
           "Command failed with exit code null" ++ JS.nl
             ++ "Standard output:" ++ JS.nl ++ "abc";
         entry_timestamp := iso_of_ms 30001;
         entry_exitCode := (-1)%Z;
         entry_connectionId := None |} ].
Proof.
  refine (proj2 (proj2 (timeout_then_close_logs_twice roomy started after_spawn
                          30000%Z 30001%Z [(10%Z, stdout_data "abc")] None _ _ _)) _).
  - reflexivity.
  - reflexivity.
  - repeat constructor.
  - vm_compute. discriminate.
Defined.

(** The process that closes first resolves the call. *)
Example close_wins :
  let s := exec_run roomy [(10%Z, stdout_data "abc"); (20%Z, close (Some 0%Z));
                           (30000%Z, timer_fires)] (started, after_spawn) in
  (∃ r, promise (fst s) = Resolved r ∧ content_text r = "abc")
  ∧ kill_calls (fst s) = 0
  ∧ List.length (commandHistory (snd s)) = 1.
Proof. simpl. split; [eexists; split; reflexivity | split; reflexivity]. Qed.

End RaceExamples.

(** C3. The bound is broken on the paths that log without trimming. With a
    history cap of 1 and logging on, two [ssh_execute] calls whose connection
    attempt is refused leave two entries in the history; and a timeout on a
    local execution adds its entry to a history that is already full. *)
Theorem history_exceeds_cap (P : Platform) :
  let config := Examples.capped in
  let w1 := snd (call_tool (H := SpecValidation.validation) config
                   (ssh_execute "raspberry-pi" "uname -a") Examples.refused
                   Examples.empty_world) in
  let w2 := snd (call_tool (H := SpecValidation.validation) config
                   (ssh_execute "raspberry-pi" "uptime") Examples.refused w1) in
  let w3 := snd (exec_step config 30000%Z timer_fires (Examples.started, w1)) in
  maxHistorySize (security config) = 1%Z
  ∧ List.length (commandHistory w1) = 1
  ∧ map entry_command (commandHistory w2) = ["uname -a"; "uptime"]
  ∧ map entry_command (commandHistory w3) = ["uname -a"; "dir"].
Proof. repeat split. Qed.

(** ** Reading the history *)

Lemma str_take_length (n : nat) (s : string) :
  String.length (JS.str_take n s) = Nat.min n (String.length s).
Proof.
  revert s. induction n as [|n IH]; intros [|c s]; simpl; try done.
  by rewrite IH.
Qed.

Lemma str_take_prefix (n : nat) (s : string) :
  ∃ rest, s = JS.str_take n s ++ rest.
Proof.
  revert s. induction n as [|n IH]; intros [|c s]; simpl.
  - by exists EmptyString.
  - by exists (String c s).
  - by exists EmptyString.
  - destruct (IH s) as [rest Hr]. exists rest. rewrite str_app_cons. by rewrite <- Hr.
Qed.

Section HistoryRead.
Context `{Validation} `{Platform}.
Variable config : ServerConfig.

Lemma parse_limit_in_range (limit : option Z) :
  (1 <= default 10 limit <= maxHistorySize (security config))%Z →
  parse_limit config limit = inr (default 10%Z limit).
Proof.
  intros [Hlo Hhi]. unfold parse_limit.
  assert ((default 10 limit <? 1)%Z = false) as -> by (apply Z.ltb_ge; lia).
  assert ((default 10 limit >? maxHistorySize (security config))%Z = false) as ->
    by (rewrite Z.gtb_ltb; apply Z.ltb_ge; lia).
  reflexivity.
Qed.

Lemma parse_limit_out_of_range (v : Z) :
  (v < 1 ∨ maxHistorySize (security config) < v)%Z →
  ∃ issue issues, parse_limit config (Some v) = inl (ZodError (issue :: issues)).
Proof.
  intros Hout. unfold parse_limit. simpl.
  destruct (v <? 1)%Z eqn:Hlo; [simpl; eauto|].
  destruct (v >? maxHistorySize (security config))%Z eqn:Hhi; [simpl; eauto|].
  apply Z.ltb_ge in Hlo. rewrite Z.gtb_ltb in Hhi. apply Z.ltb_ge in Hhi. lia.
Qed.

(** C5, as the code has it. With logging off the call returns the
    disabled notice. With logging on, a limit (10 when absent) that lies in
    [1, maxHistorySize] returns the last [limit] entries in their order, each
    with its result text cut to its first 1000 characters; a supplied limit
    outside that range is not clamped: the call fails with an invalid-params
    error. *)
Theorem get_command_history_in_range (limit : option Z) (e : Env) (w : World) :
  (logCommands (security config) = false →
   call_tool config (get_command_history limit) e w
   = (Settled (inr (text_result history_disabled_notice)), w))
  ∧ (logCommands (security config) = true →
     (1 <= default 10 limit <= maxHistorySize (security config))%Z →
     call_tool config (get_command_history limit) e w
     = (Settled (inr (text_result (JSON_stringify (map preview
          (drop (List.length (commandHistory w) - Z.to_nat (default 10%Z limit))
                (commandHistory w)))))), w))
  ∧ (logCommands (security config) = true →
     ∀ v, limit = Some v → (v < 1 ∨ maxHistorySize (security config) < v)%Z →
     ∃ message,
       call_tool config (get_command_history limit) e w
       = (Settled (inl (McpError InvalidParams message)), w))
  ∧ (∀ entry,
       String.length (entry_output (preview entry))
       = Nat.min 1000 (String.length (entry_output entry))
       ∧ ∃ rest, entry_output entry = entry_output (preview entry) ++ rest).
Proof.
  repeat split.
  - intros Hoff. unfold call_tool, get_command_history_handler. by rewrite Hoff.
  - intros Hon Hrange. unfold call_tool, get_command_history_handler.
    rewrite Hon, (parse_limit_in_range limit Hrange). simpl.
    rewrite slice_from_last by lia. reflexivity.
  - intros Hon v -> Hout. unfold call_tool, get_command_history_handler.
    rewrite Hon. destruct (parse_limit_out_of_range v Hout) as (issue & issues & ->).
    simpl. eauto.
  - apply str_take_length.
  - apply str_take_prefix.
Qed.

End HistoryRead.

Module HistoryExamples.
Import SpecValidation SamplePlatform Examples.

Lemma get_command_history_in_range_witness :
  call_tool roomy (get_command_history (Some 2%Z)) answers three_entries
  = (Settled (inr (text_result (json_history
       [sample_entry "ver" "b"; sample_entry "whoami" "c"]))), three_entries)
  ∧ ∃ message,
      call_tool roomy (get_command_history (Some 9%Z)) answers three_entries
      = (Settled (inl (McpError InvalidParams message)), three_entries).
Proof.
  split.
  - refine (proj1 (proj2 (get_command_history_in_range roomy (Some 2%Z) answers
                            three_entries)) _ _).
    + reflexivity.
    + vm_compute. split; discriminate.
  - refine (proj1 (proj2 (proj2 (get_command_history_in_range roomy (Some 9%Z) answers
                                   three_entries))) _ 9%Z _ _).
    + reflexivity.
    + reflexivity.
    + right. vm_compute. reflexivity.
Defined.

(** C5, as stated, does not hold: a limit of 0 is not clamped to 1 (which
    would return the last entry) but rejected with an invalid-params
    error. *)
Lemma get_command_history_rejects_limit_0 :
  call_tool roomy (get_command_history (Some 0%Z)) answers three_entries
  = (Settled (inl (McpError InvalidParams
       "Invalid arguments: Number must be greater than or equal to 1")), three_entries)
  ∧ get_command_history_clamped roomy (Some 0%Z) three_entries
    = text_result (json_history [sample_entry "whoami" "c"])
  ∧ call_tool roomy (get_command_history (Some 0%Z)) answers three_entries
    ≠ (Settled (inr (get_command_history_clamped roomy (Some 0%Z) three_entries)),
       three_entries).
Proof. repeat split. discriminate. Qed.

Example limit_above_cap_rejected :
  call_tool roomy (get_command_history (Some 9%Z)) answers three_entries
  = (Settled (inl (McpError InvalidParams
       "Invalid arguments: Number must be less than or equal to 5")), three_entries).
Proof. reflexivity. Qed.

End HistoryExamples.

(** ** Output capture: one budget and one flag for both streams *)

Lemma stdout_chunks_cons_stdout (now : Z) (chunk : string) (evs : list (Z * ProcEvent)) :
  stdout_chunks ((now, stdout_data chunk) :: evs) = chunk :: stdout_chunks evs.
Proof. reflexivity. Qed.

Lemma stdout_chunks_cons_stderr (now : Z) (chunk : string) (evs : list (Z * ProcEvent)) :
  stdout_chunks ((now, stderr_data chunk) :: evs) = stdout_chunks evs.
Proof. reflexivity. Qed.

Lemma stderr_chunks_cons_stderr (now : Z) (chunk : string) (evs : list (Z * ProcEvent)) :
  stderr_chunks ((now, stderr_data chunk) :: evs) = chunk :: stderr_chunks evs.
Proof. reflexivity. Qed.

Lemma stderr_chunks_cons_stdout (now : Z) (chunk : string) (evs : list (Z * ProcEvent)) :
  stderr_chunks ((now, stdout_data chunk) :: evs) = stderr_chunks evs.
Proof. reflexivity. Qed.

Lemma concat_chunks_cons (chunk : string) (chunks : list string) :
  concat_chunks (chunk :: chunks) = chunk ++ concat_chunks chunks.
Proof. reflexivity. Qed.

Lemma total_len_cons (now : Z) (ev : ProcEvent) (evs : list (Z * ProcEvent)) :
  total_len ((now, ev) :: evs) = (JS.len (chunk_of ev) + total_len evs)%Z.
Proof. reflexivity. Qed.

Lemma total_len_app (evs evs' : list (Z * ProcEvent)) :
  total_len (evs ++ evs')%list = (total_len evs + total_len evs')%Z.
Proof.
  induction evs as [|[now ev] evs IH]; [done|].
  change (((now, ev) :: evs) ++ evs')%list with ((now, ev) :: (evs ++ evs'))%list.
  rewrite !total_len_cons, IH. lia.
Qed.

Lemma total_len_nonneg (evs : list (Z * ProcEvent)) : (0 <= total_len evs)%Z.
Proof.
  induction evs as [|[now ev] evs IH]; [done|].
  rewrite total_len_cons. pose proof (len_nonneg (chunk_of ev)). lia.
Qed.

Section Capture.
Context `{Platform}.
Variable config : ServerConfig.

Lemma accepted_cons (size now : Z) (ev : ProcEvent) (evs : list (Z * ProcEvent)) :
  accepted config size ((now, ev) :: evs)
  = if (size + JS.len (chunk_of ev) <=? maxOutputSize (security config))%Z
    then (now, ev) :: accepted config (size + JS.len (chunk_of ev)) evs
    else accepted config size evs.
Proof. reflexivity. Qed.

Lemma refused_cons (size now : Z) (ev : ProcEvent) (evs : list (Z * ProcEvent)) :
  refused config size ((now, ev) :: evs)
  = if (size + JS.len (chunk_of ev) <=? maxOutputSize (security config))%Z
    then refused config (size + JS.len (chunk_of ev)) evs
    else (now, ev) :: refused config size evs.
Proof. reflexivity. Qed.

(** While every chunk fits, each is appended to the buffer of its stream and
    counted; nothing is marked. *)
Lemma exec_run_all_fit (evs : list (Z * ProcEvent)) (x : Exec) (w : World) :
  data_only evs →
  (outputSize x + total_len evs <= maxOutputSize (security config))%Z →
  let s := exec_run config evs (x, w) in
  output (fst s) = output x ++ concat_chunks (stdout_chunks evs)
  ∧ error (fst s) = error x ++ concat_chunks (stderr_chunks evs)
  ∧ outputSize (fst s) = (outputSize x + total_len evs)%Z
  ∧ truncated (fst s) = truncated x
  ∧ outputFilePath (fst s) = outputFilePath x
  ∧ files (snd s) = files w.
Proof.
  intros Hd. revert x w.
  induction Hd as [|[now ev] evs Hev _ IH]; intros x w Hfit; cbv zeta.
  - simpl. by rewrite !str_app_nil_r, Z.add_0_r.
  - rewrite exec_run_cons. rewrite total_len_cons in Hfit |- *.
    pose proof (total_len_nonneg evs) as Hrest.
    destruct ev as [chunk|chunk| | |]; try discriminate;
      change (chunk_of (stdout_data chunk)) with chunk in *;
      change (chunk_of (stderr_data chunk)) with chunk in *.
    + rewrite stdout_chunks_cons_stdout, stderr_chunks_cons_stdout, concat_chunks_cons.
      simpl exec_step. unfold on_stdout.
      assert ((outputSize x + JS.len chunk <=? maxOutputSize (security config))%Z = true)
        as -> by (apply Z.leb_le; lia).
      match goal with
      | |- context [exec_run config evs (?x1, ?w1)] => specialize (IH x1 w1)
      end.
      cbv zeta in IH. destruct IH as (-> & -> & -> & -> & -> & ->); [simpl; lia|].
      simpl. rewrite str_app_assoc. repeat split. lia.
    + rewrite stdout_chunks_cons_stderr, stderr_chunks_cons_stderr, concat_chunks_cons.
      simpl exec_step. unfold on_stderr.
      assert ((outputSize x + JS.len chunk <=? maxOutputSize (security config))%Z = true)
        as -> by (apply Z.leb_le; lia).
      match goal with
      | |- context [exec_run config evs (?x1, ?w1)] => specialize (IH x1 w1)
      end.
      cbv zeta in IH. destruct IH as (-> & -> & -> & -> & -> & ->); [simpl; lia|].
      simpl. rewrite str_app_assoc. repeat split. lia.
Qed.

(** Once the flag is set, a chunk of either stream is appended to the buffer
    of its stream when it fits what is left of the budget, and leaves both
    buffers alone when it does not: no second marker is added. *)
Lemma exec_run_truncated (evs : list (Z * ProcEvent)) (x : Exec) (w : World) :
  data_only evs →
  truncated x = true →
  let s := exec_run config evs (x, w) in
  let later := accepted config (outputSize x) evs in
  output (fst s) = output x ++ concat_chunks (stdout_chunks later)
  ∧ error (fst s) = error x ++ concat_chunks (stderr_chunks later)
  ∧ outputSize (fst s) = (outputSize x + total_len later)%Z
  ∧ truncated (fst s) = true.
Proof.
  intros Hd. revert x w.
  induction Hd as [|[now ev] evs Hev _ IH]; intros x w Ht; cbv zeta.
  - simpl. by rewrite !str_app_nil_r, Z.add_0_r.
  - rewrite exec_run_cons, accepted_cons.
    destruct ev as [chunk|chunk| | |]; try discriminate;
      change (chunk_of (stdout_data chunk)) with chunk;
      change (chunk_of (stderr_data chunk)) with chunk.
    + simpl exec_step. unfold on_stdout.
      destruct (outputSize x + JS.len chunk <=? maxOutputSize (security config))%Z.
      * match goal with
        | |- context [exec_run config evs (?x1, ?w1)] => specialize (IH x1 w1 Ht)
        end.
        cbv zeta in IH. destruct IH as (-> & -> & -> & ->).
        rewrite stdout_chunks_cons_stdout, stderr_chunks_cons_stdout, concat_chunks_cons,
          total_len_cons.
        simpl. rewrite str_app_assoc. repeat split. lia.
      * rewrite Ht. simpl negb.
        destruct (enableOutputFiles (security config)); cbv iota.
        -- destruct (outputFilePath x); by apply IH.
        -- by apply IH.
    + simpl exec_step. unfold on_stderr. rewrite Ht. simpl negb. cbv iota.
      destruct (outputSize x + JS.len chunk <=? maxOutputSize (security config))%Z.
      * match goal with
        | |- context [exec_run config evs (?x1, ?w1)] => specialize (IH x1 w1 eq_refl)
        end.
        cbv zeta in IH. destruct IH as (-> & -> & -> & ->).
        rewrite stdout_chunks_cons_stderr, stderr_chunks_cons_stderr, concat_chunks_cons,
          total_len_cons.
        simpl. rewrite str_app_assoc. repeat split. lia.
      * by apply IH.
Qed.

(** Side conditions of the shapes: equal texts up to associativity and the
    empty string, and sums of lengths. *)
Ltac shape_side :=
  simpl;
  repeat match goal with
         | Heq : output _ = _ |- _ => rewrite Heq
         | Heq : error _ = _ |- _ => rewrite Heq
         end;
  rewrite ?str_app_assoc, ?str_app_nil_r, ?len_app;
  change (JS.len EmptyString) with 0%Z;
  try done; try lia.

Lemma on_stderr_shape (chunk : string) (x : Exec) :
  within_cap config x → capture_shape config x →
  within_cap config (on_stderr config chunk x) ∧ capture_shape config (on_stderr config chunk x).
Proof.
  intros [Hlo Hhi] Hshape. unfold on_stderr, within_cap.
  pose proof (len_nonneg chunk) as Hc. pose proof (len_nonneg (output x)) as Hout.
  destruct (_ <=? _)%Z eqn:Hfit.
  - apply Z.leb_le in Hfit. simpl. split; [lia|].
    destruct Hshape as [Ht Hs | a b Ht Hoff Ho Hs | c d Ht He Hs | fp b Ht Hon Ho Hs].
    + apply shape_clean; shape_side.
    + apply (shape_stdout_marked _ _ a b); shape_side.
    + apply (shape_stderr_marked _ _ c (d ++ chunk)); shape_side.
    + apply (shape_spilled _ _ fp b); shape_side.
  - destruct (truncated x) eqn:Ht; simpl; [done|].
    split; [done|].
    destruct Hshape as [_ Hs | a b Ht' | c d Ht' | fp b Ht']; try congruence.
    apply (shape_stderr_marked _ _ (error x) EmptyString); shape_side.
Qed.

Lemma on_stdout_shape (now : Z) (chunk : string) (x : Exec) (fs : gmap string File) :
  within_cap config x → capture_shape config x →
  within_cap config (fst (on_stdout config now chunk x fs))
  ∧ capture_shape config (fst (on_stdout config now chunk x fs)).
Proof.
  intros [Hlo Hhi] Hshape. unfold on_stdout, within_cap.
  pose proof (len_nonneg chunk) as Hc. pose proof (len_nonneg (output x)) as Hout.
  destruct (_ <=? _)%Z eqn:Hfit.
  - apply Z.leb_le in Hfit. simpl. split; [lia|].
    destruct Hshape as [Ht Hs | a b Ht Hoff Ho Hs | c d Ht He Hs | fp b Ht Hon Ho Hs].
    + apply shape_clean; shape_side.
    + apply (shape_stdout_marked _ _ a (b ++ chunk)); shape_side.
    + apply (shape_stderr_marked _ _ c d); shape_side.
    + apply (shape_spilled _ _ fp (b ++ chunk)); shape_side.
  - destruct (enableOutputFiles (security config)) eqn:Hspill.
    + destruct (truncated x) eqn:Ht; simpl.
      * destruct (outputFilePath x); simpl; done.
      * destruct (saveToFile config now (output x ++ chunk) fs) as [filePath fs'].
        simpl. split; [done|].
        destruct Hshape as [_ Hs | a b Ht' | c d Ht' | fp b Ht']; try congruence.
        apply (shape_spilled _ _ filePath EmptyString); shape_side.
    + destruct (truncated x) eqn:Ht; simpl; [done|].
      split; [done|].
      destruct Hshape as [_ Hs | a b Ht' | c d Ht' | fp b Ht']; try congruence.
      apply (shape_stdout_marked _ _ (output x) EmptyString); shape_side.
Qed.

Lemma exec_step_shape (now : Z) (ev : ProcEvent) (x : Exec) (w : World) :
  is_data ev = true →
  within_cap config x → capture_shape config x →
  within_cap config (fst (exec_step config now ev (x, w)))
  ∧ capture_shape config (fst (exec_step config now ev (x, w))).
Proof.
  intros Hd Hcap Hshape. destruct ev as [chunk|chunk| | |]; try discriminate.
  - pose proof (on_stdout_shape now chunk x (files w) Hcap Hshape) as Hs.
    simpl. destruct (on_stdout config now chunk x (files w)) as [x' fs']. exact Hs.
  - simpl. by apply on_stderr_shape.
Qed.

(** The shared counter and the shapes of the two buffers are kept by every
    output event. *)
Lemma exec_run_shape (x0 : Exec) (w0 : World) (ds : list (Z * ProcEvent)) :
  data_only ds →
  within_cap config x0 → capture_shape config x0 →
  within_cap config (fst (exec_run config ds (x0, w0)))
  ∧ capture_shape config (fst (exec_run config ds (x0, w0))).
Proof.
  intros Hds. revert x0 w0.
  induction Hds as [|[now ev] ds Hev _ IH]; intros x0 w0 Hc Hsh; [done|].
  rewrite exec_run_cons.
  pose proof (exec_step_shape now ev x0 w0 Hev Hc Hsh) as [Hc1 Hsh1].
  destruct (exec_step config now ev (x0, w0)) as [x1 w1]. by apply IH.
Qed.

(** The events after the first chunk that did not fit: the flag is set, so
    [exec_run_truncated] tells what the buffers hold at the end. *)
Ltac after_first_overflow Hpost Hsize :=
  match goal with
  | |- context [exec_run config ?post (?x2, ?w2)] =>
      let Hlater := fresh "Hlater" in
      pose proof (exec_run_truncated post x2 w2 Hpost eq_refl) as Hlater;
      cbv zeta in Hlater; revert Hlater;
      generalize (exec_run config post (x2, w2));
      intros ? Hlater; simpl in Hlater; rewrite Hsize in Hlater;
      destruct Hlater as (-> & -> & -> & ->)
  end.

(** C2, as the code has it. From a fresh execution and under a
    non-negative cap, after any sequence of output events:

    - the shared counter lies within the cap, and the two buffers have one of
      four shapes: both hold accepted chunks only, whose lengths add up to the
      counter; or exactly one of them holds one truncation marker, the other
      none, the accepted text of both adding up to the counter; or the
      standard-output buffer begins with the spill notice and standard error
      holds no marker;
    - when the chunks of both streams together fit the cap, each buffer is
      the text of its stream's chunks and nothing is marked;
    - otherwise there is a first chunk that does not fit on top of the chunks
      of both streams before it. If it is a chunk of standard output, the
      standard-output buffer is the text of its earlier chunks followed by
      the marker (with spilling on: the spill notice alone), and the
      standard-error buffer is the text of its earlier chunks, without a
      marker. If it is a chunk of standard error, the standard-error buffer is
      the text of its earlier chunks followed by its marker, and the
      standard-output buffer is unmarked. In both cases each buffer is then
      followed by the later chunks of its stream that still fit what is left
      of the shared budget when they arrive; no second marker is added. *)
Theorem capture_shares_one_budget (x0 : Exec) (w0 : World) (ds : list (Z * ProcEvent)) :
  (0 <= maxOutputSize (security config))%Z →
  fresh_capture x0 →
  data_only ds →
  let x := fst (exec_run config ds (x0, w0)) in
  ((0 <= outputSize x <= maxOutputSize (security config))%Z ∧ capture_shape config x)
  ∧ ((total_len ds <= maxOutputSize (security config))%Z →
     truncated x = false
     ∧ output x = concat_chunks (stdout_chunks ds)
     ∧ error x = concat_chunks (stderr_chunks ds)
     ∧ outputSize x = total_len ds)
  ∧ (∀ pre t ev post,
       ds = (pre ++ (t, ev) :: post)%list →
       (total_len pre <= maxOutputSize (security config))%Z →
       (maxOutputSize (security config) < total_len pre + JS.len (chunk_of ev))%Z →
       let later := accepted config (total_len pre) post in
       truncated x = true
       ∧ outputSize x = (total_len pre + total_len later)%Z
       ∧ match ev with
         | stdout_data _ =>
             output x
             = (if enableOutputFiles (security config)
                then saved_notice config (spill_path config t)
                else concat_chunks (stdout_chunks pre) ++ stdout_marker)
                 ++ concat_chunks (stdout_chunks later)
             ∧ error x
               = concat_chunks (stderr_chunks pre) ++ concat_chunks (stderr_chunks later)
         | stderr_data _ =>
             output x
             = concat_chunks (stdout_chunks pre) ++ concat_chunks (stdout_chunks later)
             ∧ error x
               = (concat_chunks (stderr_chunks pre) ++ stderr_marker)
                   ++ concat_chunks (stderr_chunks later)
         | _ => False
         end).
Proof.
  intros Hcap (Ho & He & Hs & Ht & Hp) Hds. cbv zeta. split; [|split].
  - apply exec_run_shape; [done | unfold within_cap; lia |].
    apply shape_clean; [done|]. by rewrite Ho, He, Hs.
  - intros Hfit.
    pose proof (exec_run_all_fit ds x0 w0 Hds) as Hall. cbv zeta in Hall.
    destruct Hall as (-> & -> & -> & -> & _); [lia|].
    rewrite Ho, He, Hs, Ht. repeat split; lia.
  - intros pre t ev post -> Hfit Hover.
    apply Forall_app in Hds as [Hpre Hrest].
    apply Forall_cons in Hrest as [Hev Hpost]. simpl in Hev.
    rewrite exec_run_app, exec_run_cons.
    pose proof (exec_run_all_fit pre x0 w0 Hpre) as Hall. cbv zeta in Hall.
    destruct Hall as (Ho1 & He1 & Hs1 & Ht1 & Hp1 & _); [lia|].
    destruct (exec_run config pre (x0, w0)) as [x1 w1]. simpl in Ho1, He1, Hs1, Ht1, Hp1.
    rewrite Ho in Ho1. rewrite He in He1. rewrite Hs in Hs1. rewrite Ht in Ht1.
    change (EmptyString ++ concat_chunks (stdout_chunks pre))
      with (concat_chunks (stdout_chunks pre)) in Ho1.
    change (EmptyString ++ concat_chunks (stderr_chunks pre))
      with (concat_chunks (stderr_chunks pre)) in He1.
    rewrite Z.add_0_l in Hs1.
    destruct ev as [chunk|chunk| | |]; try discriminate.
    + change (chunk_of (stdout_data chunk)) with chunk in Hover.
      simpl exec_step. unfold on_stdout.
      assert ((outputSize x1 + JS.len chunk <=? maxOutputSize (security config))%Z = false)
        as -> by (apply Z.leb_gt; lia).
      rewrite Ht1. simpl negb.
      destruct (enableOutputFiles (security config)); cbv iota.
      * assert (saveToFile config t (output x1 ++ chunk) (files w1)
                = (spill_path config t,
                   snd (saveToFile config t (output x1 ++ chunk) (files w1)))) as ->.
        { unfold saveToFile, spill_path.
          by destruct (JS.present (outputDirectory (security config))). }
        after_first_overflow Hpost Hs1. by rewrite He1.
      * after_first_overflow Hpost Hs1. by rewrite Ho1, He1.
    + change (chunk_of (stderr_data chunk)) with chunk in Hover.
      simpl exec_step. unfold on_stderr.
      assert ((outputSize x1 + JS.len chunk <=? maxOutputSize (security config))%Z = false)
        as -> by (apply Z.leb_gt; lia).
      rewrite Ht1. simpl negb. cbv iota.
      after_first_overflow Hpost Hs1. by rewrite Ho1, He1.
Qed.

(** Every sequence of output events falls under one of the two cases: its
    chunks fit together, or it has a first chunk that does not fit. *)
Lemma fits_or_first_overflow (ds : list (Z * ProcEvent)) :
  (0 <= maxOutputSize (security config))%Z →
  (total_len ds <= maxOutputSize (security config))%Z
  ∨ ∃ pre t ev post,
      ds = (pre ++ (t, ev) :: post)%list
      ∧ (total_len pre <= maxOutputSize (security config))%Z
      ∧ (maxOutputSize (security config) < total_len pre + JS.len (chunk_of ev))%Z.
Proof.
  intros Hcap. induction ds as [|[t ev] ds IH] using rev_ind; [left; simpl; lia|].
  destruct IH as [Hfit | (pre & t' & ev' & post & -> & Hfit & Hover)].
  - destruct (Z_le_gt_dec (total_len (ds ++ [(t, ev)])%list)
                          (maxOutputSize (security config))) as [Hle|Hgt]; [by left|].
    right. exists ds, t, ev, []. split; [done|]. split; [done|].
    rewrite total_len_app, total_len_cons in Hgt.
    change (total_len []) with 0%Z in Hgt. lia.
  - right. exists pre, t', ev', (post ++ [(t, ev)])%list.
    split; [|done]. by rewrite <- app_assoc.
Qed.

End Capture.

Module CaptureExamples.
Import SpecValidation SamplePlatform Examples.

Lemma capture_shares_one_budget_witness :
  let x := fst (exec_run roomy mixed (started, after_spawn)) in
  ((0 <= outputSize x <= maxOutputSize (security roomy))%Z ∧ capture_shape roomy x)
  ∧ truncated x = true
  ∧ output x = stdout_marker
  ∧ error x = "eeeeeeee".
Proof.
  assert ((0 <= maxOutputSize (security roomy))%Z) as Hcap by (vm_compute; discriminate).
  assert (fresh_capture started) as Hfresh by (repeat split).
  assert (data_only mixed) as Hdata by (repeat constructor).
  pose proof (capture_shares_one_budget roomy started after_spawn mixed Hcap Hfresh Hdata)
    as (Hshape & _ & Hfirst).
  split; [exact Hshape|].
  destruct (Hfirst [(1%Z, stderr_data "eeeeeeee")] 2%Z (stdout_data "ooooo")
                   [(3%Z, stderr_data "eeeee")]) as (Ht & _ & Ho & He).
  - reflexivity.
  - vm_compute. discriminate.
  - vm_compute. reflexivity.
  - split; [exact Ht|]. split; [exact Ho | exact He].
Defined.

(** C2, as stated, does not hold: standard output has produced five
    characters against a cap of ten, yet nothing of it is captured, because
    standard error has used eight of the shared ten; and standard error,
    whose own total of thirteen exceeds the cap, gets no marker, because the
    shared flag was set for standard output. Captured stream by stream, the
    buffers would differ. *)
Lemma streams_are_not_independent :
  let x := fst (exec_run roomy mixed (started, after_spawn)) in
  output x = stdout_marker
  ∧ error x = "eeeeeeee"
  ∧ capture_alone roomy stdout_marker (stdout_chunks mixed) EmptyString 0 = "ooooo"
  ∧ capture_alone roomy stderr_marker (stderr_chunks mixed) EmptyString 0
    = "eeeeeeee" ++ stderr_marker
  ∧ output x ≠ capture_alone roomy stdout_marker (stdout_chunks mixed) EmptyString 0
  ∧ error x ≠ capture_alone roomy stderr_marker (stderr_chunks mixed) EmptyString 0.
Proof. repeat split; discriminate. Qed.

End CaptureExamples.

(** ** Overflow of standard output: spill or truncate *)

Section Spill.
Context `{Platform}.
Variable config : ServerConfig.




End Spill.

Module SpillExamples.
Import SpecValidation SamplePlatform Examples.



(** With a directory, the whole output reaches the file when every later
    chunk is itself too large for the budget. *)
Example spill_complete :
  let s := exec_run spilling
             [(1%Z, stdout_data "aaaaaaaa"); (1700000000123%Z, stdout_data "bbbbb");
              (1700000000200%Z, stdout_data "ccccc")]
             (started, after_spawn) in
  file_content <$> files (snd s) !! spill_file = Some "aaaaaaaabbbbbccccc".
Proof. vm_compute. reflexivity. Qed.

(** A later chunk that fits the budget is appended to the buffer in memory,
    not to the file. *)
Example later_chunk_that_fits :
  let s := exec_run spilling
             [(1%Z, stdout_data "aaaaaaaa"); (1700000000123%Z, stdout_data "bbbbb");
              (1700000000200%Z, stdout_data "cc")]
             (started, after_spawn) in
  file_content <$> files (snd s) !! spill_file = Some "aaaaaaaabbbbb"
  ∧ output (fst s)
    = (exceeded_notice spilling ++ "Full output saved to: " ++ spill_file ++ JS.nl) ++ "cc".
Proof. vm_compute. split; reflexivity. Qed.

(** Without spilling, a later chunk that fits follows the marker. *)
Example chunk_after_marker :
  let s := exec_run roomy
             [(1%Z, stdout_data "aaaaaaaa"); (2%Z, stdout_data "bbbbb");
              (3%Z, stdout_data "cc"); (4%Z, stdout_data "ddddd")]
             (started, after_spawn) in
  output (fst s) = "aaaaaaaa" ++ stdout_marker ++ "cc"
  ∧ files (snd s) = ∅.
Proof. vm_compute. split; reflexivity. Qed.

End SpillExamples.

(** * Further properties of the server *)

(** ** [escapeRegex] *)

Lemma special_backslash : regex_special (ascii_of_nat 92) = true.
Proof. reflexivity. Qed.

Lemma escapeRegex_cons (c : ascii) (rest : string) :
  escapeRegex (String c rest)
  = if regex_special c
    then String (ascii_of_nat 92) (String c (escapeRegex rest))
    else String c (escapeRegex rest).
Proof. reflexivity. Qed.

(** X1. Escaping loses nothing: reading the backslashes of an escaped text
    back gives the text, so two texts with the same escaped form are the same
    text. *)
Theorem escapeRegex_round_trip (text : string) :
  unescape (escapeRegex text) = text
  ∧ ∀ text', escapeRegex text = escapeRegex text' → text = text'.
Proof.
  assert (∀ s, unescape (escapeRegex s) = s) as Hback.
  { induction s as [|c rest IH]; [reflexivity|].
    rewrite escapeRegex_cons. destruct (regex_special c) eqn:Hc.
    - simpl. by rewrite IH.
    - simpl. destruct (Ascii.eqb c (ascii_of_nat 92)) eqn:Hb.
      + apply Ascii.eqb_eq in Hb. subst c. by rewrite special_backslash in Hc.
      + by rewrite IH. }
  split; [apply Hback|].
  intros text' Heq. rewrite <- (Hback text), <- (Hback text'). by rewrite Heq.
Qed.

(** X2. Escaping works character by character: the escaped form of a
    concatenation is the concatenation of the escaped forms; it is longer
    than the text by the number of class characters in it; and a text without
    class characters is left as it is. *)
Theorem escapeRegex_pointwise (a b : string) :
  escapeRegex (a ++ b) = escapeRegex a ++ escapeRegex b
  ∧ String.length (escapeRegex a) = String.length a + count_special a
  ∧ (count_special a = 0 ↔ escapeRegex a = a).
Proof.
  assert (∀ s, String.length (escapeRegex s) = String.length s + count_special s) as Hlen.
  { induction s as [|c s IH]; [reflexivity|].
    rewrite escapeRegex_cons. simpl count_special.
    destruct (regex_special c); simpl String.length; lia. }
  split; [|split; [apply Hlen|split]].
  - induction a as [|c a IH]; [reflexivity|].
    rewrite str_app_cons, !escapeRegex_cons.
    destruct (regex_special c); rewrite !str_app_cons; by rewrite IH.
  - induction a as [|c a IH]; [reflexivity|].
    simpl count_special. rewrite escapeRegex_cons.
    destruct (regex_special c); [discriminate|].
    intros Hz. by rewrite IH.
  - intros Heq. pose proof (Hlen a) as Hl. rewrite Heq in Hl. lia.
Qed.

Example escapeRegex_sample :
  escapeRegex "rm -rf C:\tmp\*.log (all)" = "rm \-rf C:\\tmp\\\*\.log \(all\)".
Proof. reflexivity. Qed.

(** ** What an accepted command has passed *)

Lemma startsWith_spec (s p : string) :
  JS.startsWith s p = true ↔ ∃ rest, s = p ++ rest.
Proof.
  revert s. induction p as [|a p IH]; intros s.
  - split; [intros _; by exists s | by destruct s].
  - destruct s as [|b s]; simpl.
    + split; [done | intros [rest Hr]; rewrite str_app_cons in Hr; discriminate].
    + destruct (Ascii.eqb a b) eqn:Hab.
      * apply Ascii.eqb_eq in Hab. subst b. rewrite IH. split.
        -- intros [rest ->]. by exists rest.
        -- intros [rest Hr]. rewrite str_app_cons in Hr. injection Hr as ->. by exists rest.
      * apply Ascii.eqb_neq in Hab. split; [done|].
        intros [rest Hr]. rewrite str_app_cons in Hr. congruence.
Qed.

Lemma set_of_array_go_elem (x : string) (seen l : list string) :
  x ∈ JS.set_of_array_go seen l ↔ x ∈ l ∧ x ∉ seen.
Proof.
  revert seen. induction l as [|y l IH]; intros seen; simpl.
  - split; [by intros ?%elem_of_nil | by intros [?%elem_of_nil _]].
  - case_bool_decide as Hy.
    + rewrite IH, elem_of_cons. split; [tauto|]. intros [[->|Hl] Hn]; tauto.
    + rewrite !elem_of_cons, IH, elem_of_cons. split.
      * intros [->|[Hl Hn]]; [tauto|]. split; [tauto|]. tauto.
      * intros [[->|Hl] Hn]; [tauto|].
        destruct (decide (x = y)) as [->|Hne]; [tauto|]. right. tauto.
Qed.

Lemma set_of_array_elem (x : string) (l : list string) :
  x ∈ JS.set_of_array l ↔ x ∈ l.
Proof.
  unfold JS.set_of_array. rewrite set_of_array_go_elem.
  split; [tauto|]. intros Hl. split; [done|]. apply not_elem_of_nil.
Qed.

Section Acceptance.
Context `{Validation}.
Variable config : ServerConfig.

(** X3. A command is accepted exactly when it passes everything the
    validator looks at: under injection protection the operator validation
    of the given shell profile raises nothing; the command parses; the
    executable token is not blocked; no argument is blocked; and the command
    is no longer than [maxCommandLength] (a command of exactly that length
    passes). *)
Theorem validateCommand_accepts_iff (shell : ShellKey) (command : string) :
  validateCommand config shell command = inr tt
  ↔ (enableInjectionProtection (security config) = true →
     validateShellOperators command (shell_config (shells config) shell) = None)
    ∧ ∃ executable args,
        parseCommand command = inr (executable, args)
        ∧ isCommandBlocked executable (JS.set_of_array (blockedCommands (security config)))
          = false
        ∧ isArgumentBlocked args (blockedArguments (security config)) = false
        ∧ (JS.len command <= maxCommandLength (security config))%Z.
Proof.
  assert (∀ r : Throws unit,
            (if enableInjectionProtection (security config) then
               match validateShellOperators command (shell_config (shells config) shell)
               with Some e => throw e | None => ok tt end
             else ok tt) ≫= (λ _, r) = inr tt
            ↔ (enableInjectionProtection (security config) = true →
               validateShellOperators command (shell_config (shells config) shell) = None)
              ∧ r = inr tt) as Hfirst.
  { intros r. destruct (enableInjectionProtection _).
    - destruct (validateShellOperators _ _); simpl.
      + split; [done | intros [Hx _]; by specialize (Hx eq_refl)].
      + split; [by intros -> | by intros [_ ->]].
    - simpl. split; [by intros -> | by intros [_ ->]]. }
  unfold validateCommand. rewrite Hfirst. clear Hfirst.
  apply and_iff_compat_l.
  destruct (parseCommand command) as [perr|[executable args]]; simpl.
  { split; [done | by intros (? & ? & ? & _)]. }
  unfold throw_if.
  destruct (isCommandBlocked _ _) eqn:Hb; simpl.
  { split; [done|]. intros (? & ? & [= <- <-] & Hb' & _). congruence. }
  destruct (isArgumentBlocked _ _) eqn:Ha; simpl.
  { split; [done|]. intros (? & ? & [= <- <-] & _ & Ha' & _). congruence. }
  rewrite Z.gtb_ltb. destruct (_ <? _)%Z eqn:Hl.
  - apply Z.ltb_lt in Hl. split; [done|].
    intros (? & ? & _ & _ & _ & Hle). lia.
  - apply Z.ltb_ge in Hl. split; [|done]. intros _. by exists executable, args.
Qed.

End Acceptance.

(** ** What the tool calls do to the outside, and when *)

(** Projections of the world through the two ways of logging. *)
Ltac log_frame :=
  unfold log_untrimmed, log_trimmed, history_trim, history_push;
  repeat match goal with
         | |- context [if ?b then _ else _] => destruct b
         end;
  reflexivity.

Section Outside.
Context `{Validation} `{Platform}.
Variable config : ServerConfig.

Lemma log_untrimmed_outside (entry : CommandHistoryEntry) (w : World) :
  spawn_calls (log_untrimmed config entry w) = spawn_calls w
  ∧ files (log_untrimmed config entry w) = files w.
Proof. split; log_frame. Qed.

Lemma log_trimmed_outside (entry : CommandHistoryEntry) (w : World) :
  spawn_calls (log_trimmed config entry w) = spawn_calls w
  ∧ files (log_trimmed config entry w) = files w.
Proof. split; log_frame. Qed.

Lemma shell_of_name_name (k : ShellKey) : shell_of_name (shell_name k) = Some k.
Proof. by destruct k. Qed.

Lemma shell_of_name_inv (shell : string) (k : ShellKey) :
  shell_of_name shell = Some k → shell = shell_name k.
Proof.
  unfold shell_of_name.
  destruct (String.eqb_spec shell "powershell") as [->|_]; [by intros [= <-]|].
  destruct (String.eqb_spec shell "cmd") as [->|_]; [by intros [= <-]|].
  destruct (String.eqb_spec shell "gitbash") as [->|_]; [by intros [= <-]|].
  done.
Qed.

Lemma enabled_shells_elem (shell : string) :
  shell ∈ enabled_shells config
  ↔ ∃ k, shell = shell_name k ∧ shell_enabled (shell_config (shells config) k) = true.
Proof.
  unfold enabled_shells. rewrite list_elem_of_fmap. split.
  - intros (k & -> & Hk). exists k. split; [done|].
    apply list_elem_of_In, filter_In in Hk. tauto.
  - intros (k & -> & Hk). exists k. split; [done|].
    apply list_elem_of_In, filter_In. split; [|done].
    destruct k; simpl; tauto.
Qed.

Lemma parse_shell_ok (shell : string) (k : ShellKey) :
  parse_shell config shell = inr k
  ↔ shell = shell_name k ∧ shell_enabled (shell_config (shells config) k) = true.
Proof.
  unfold parse_shell. case_bool_decide as Hin.
  - apply enabled_shells_elem in Hin as (k' & -> & Hk').
    rewrite shell_of_name_name. split.
    + by intros [= <-].
    + intros [Hn _]. assert (k' = k) as -> by (by destruct k', k). done.
  - split; [done|]. intros [-> Hk]. destruct Hin. apply enabled_shells_elem. eauto.
Qed.

Lemma parse_shell_rejected (shell : string) :
  shell ∉ enabled_shells config →
  parse_shell config shell
  = inl (ZodError [invalid_enum_value (enabled_shells config) shell]).
Proof. intros Hn. unfold parse_shell. by rewrite bool_decide_eq_false_2. Qed.

Lemma allowed_prefix_spec (workingDir : string) :
  existsb (λ allowedPath, JS.startsWith workingDir allowedPath)
          (JS.set_of_array (allowedPaths (security config))) = true
  ↔ ∃ allowedPath rest,
      allowedPath ∈ allowedPaths (security config) ∧ workingDir = allowedPath ++ rest.
Proof.
  rewrite existsb_exists. split.
  - intros (p & Hp & Hs). apply list_elem_of_In in Hp. rewrite set_of_array_elem in Hp.
    apply startsWith_spec in Hs as [rest ->]. by exists p, rest.
  - intros (p & rest & Hp & ->). exists p. split.
    + apply list_elem_of_In. by rewrite set_of_array_elem.
    + apply startsWith_spec. by exists rest.
Qed.

(** What the checks before the promise have established when they pass. *)
Lemma execute_command_checks_ok (shell command : string) (dir : option string)
    (k : ShellKey) (workingDir : string) :
  execute_command_checks config shell command dir = inr (k, workingDir)
  ↔ parse_shell config shell = inr k
    ∧ validateCommand config k command = inr tt
    ∧ workingDir = resolved_working_dir dir
    ∧ (restrictWorkingDirectory (security config) = true →
       ∃ allowedPath rest,
         allowedPath ∈ allowedPaths (security config)
         ∧ resolved_working_dir dir = allowedPath ++ rest).
Proof.
  unfold execute_command_checks. fold (resolved_working_dir dir).
  destruct (parse_shell config shell) as [err|k']; simpl.
  { split; [done | by intros [? _]]. }
  destruct (validateCommand config k' command) as [err|[]] eqn:Hv; simpl.
  { split; [done|]. intros ([= <-] & Hv' & _). congruence. }
  destruct (restrictWorkingDirectory (security config)); simpl.
  - unfold throw_if.
    destruct (existsb _ _) eqn:Hex; simpl.
    + apply allowed_prefix_spec in Hex. split.
      * intros [= <- <-]. rewrite Hv. done.
      * intros ([= <-] & _ & -> & _). done.
    + split; [done|]. intros (_ & _ & _ & Hp).
      apply allowed_prefix_spec in Hp; [congruence | done].
  - split.
    + intros [= <- <-]. rewrite Hv. done.
    + intros ([= <-] & _ & -> & _). done.
Qed.

Lemma rethrow_not_zod {A} (r : Throws A) (errors : list ZodIssue) :
  rethrow r ≠ inl (ZodError errors).
Proof. destruct r as [[]|]; done. Qed.

Lemma rethrow_inl {A} (err : exn) : ∃ err', rethrow (A := A) (inl err) = inl err'.
Proof. destruct err; simpl; eauto. Qed.

Lemma ssh_execute_outside (connectionId command : string) (e : Env) (w : World) :
  spawn_calls (snd (ssh_execute_handler config connectionId command e w)) = spawn_calls w
  ∧ files (snd (ssh_execute_handler config connectionId command e w)) = files w.
Proof.
  unfold ssh_execute_handler, ssh_execute_try.
  destruct (negb _); [done|]. destruct (connection_lookup _ _); [|done].
  destruct (validateCommand _ _ _); simpl; [split; log_frame|].
  destruct (env_ssh e); simpl; split; log_frame.
Qed.

(** X4. Nothing is spawned unless every check has passed. If a tool call
    calls [spawn] at all, it is an [execute_command] call naming an enabled
    shell, its command has passed the validator for that shell, and, where
    working directories are restricted, its working directory begins with an
    allowed path; and then [spawn] is called once, with the executable and
    the fixed arguments of that shell's profile, the command as the one
    further argument, and that working directory. *)
Theorem spawn_only_after_checks (c : ToolCall) (e : Env) (w : World) :
  spawn_calls (snd (call_tool config c e w)) ≠ spawn_calls w →
  ∃ shell command dir shellKey,
    c = execute_command shell command dir
    ∧ shell = shell_name shellKey
    ∧ shell_enabled (shell_config (shells config) shellKey) = true
    ∧ validateCommand config shellKey command = inr tt
    ∧ (restrictWorkingDirectory (security config) = true →
       ∃ allowedPath rest,
         allowedPath ∈ allowedPaths (security config)
         ∧ resolved_working_dir dir = allowedPath ++ rest)
    ∧ spawn_calls (snd (call_tool config c e w))
      = (spawn_calls w
           ++ [ {| spawn_file := shell_command (shell_config (shells config) shellKey);
                   spawn_args :=
                     (shell_args (shell_config (shells config) shellKey) ++ [command])%list;
                   spawn_cwd := resolved_working_dir dir |} ])%list.
Proof.
  destruct c as [shell command dir|limit|connectionId command|connectionId|name];
    unfold call_tool; intros Hs.
  - destruct (execute_command_checks config shell command dir) as [err|[k wd]] eqn:Hc.
    + destruct (rethrow_inl (A := ShellKey * string) err) as [err' Hr].
      rewrite Hr in Hs. done.
    + simpl rethrow in Hs |- *. cbv iota beta in Hs |- *.
      apply execute_command_checks_ok in Hc as (Hp & Hv & -> & Hdir).
      apply parse_shell_ok in Hp as [-> Hen].
      exists (shell_name k), command, dir, k. repeat split; try done.
      unfold execute_command_spawn.
      destruct (env_spawn e) as [|has_stdout has_stderr]; [done|].
      by destruct (negb has_stdout || negb has_stderr)%bool.
  - done.
  - pose proof (ssh_execute_outside connectionId command e w) as [Ho _].
    destruct (ssh_execute_handler config connectionId command e w). done.
  - unfold ssh_disconnect_handler in Hs.
    destruct (negb _); [done|]. by destruct (env_close e).
  - done.
Qed.

(** X5. Where working directories are restricted, an enabled shell and a
    valid command are not enough: the call spawns exactly when the working
    directory, as text, begins with one of the allowed paths, whatever
    follows that beginning. Otherwise it fails with an invalid-request error
    naming the directory, and nothing is spawned, logged or written. *)
Theorem working_directory_by_prefix (shell command : string) (dir : option string)
    (shellKey : ShellKey) (e : Env) (w : World) :
  parse_shell config shell = inr shellKey →
  validateCommand config shellKey command = inr tt →
  restrictWorkingDirectory (security config) = true →
  ((∃ allowedPath rest,
      allowedPath ∈ allowedPaths (security config)
      ∧ resolved_working_dir dir = allowedPath ++ rest) →
   ∃ call,
     spawn_cwd call = resolved_working_dir dir
     ∧ spawn_calls (snd (call_tool config (execute_command shell command dir) e w))
       = (spawn_calls w ++ [call])%list)
  ∧ (¬ (∃ allowedPath rest,
          allowedPath ∈ allowedPaths (security config)
          ∧ resolved_working_dir dir = allowedPath ++ rest) →
     call_tool config (execute_command shell command dir) e w
     = (Settled (inl (McpError InvalidRequest
                        (working_dir_message (resolved_working_dir dir)))), w)).
Proof.
  intros Hp Hv Hr. split.
  - intros Hallowed.
    assert (execute_command_checks config shell command dir
            = inr (shellKey, resolved_working_dir dir)) as Hc.
    { apply execute_command_checks_ok. done. }
    unfold call_tool. rewrite Hc. simpl rethrow. cbv iota beta.
    unfold execute_command_spawn.
    exists {| spawn_file := shell_command (shell_config (shells config) shellKey);
              spawn_args :=
                (shell_args (shell_config (shells config) shellKey) ++ [command])%list;
              spawn_cwd := resolved_working_dir dir |}.
    split; [done|].
    destruct (env_spawn e) as [|has_stdout has_stderr]; [done|].
    by destruct (negb has_stdout || negb has_stderr)%bool.
  - intros Hno. unfold call_tool, execute_command_checks.
    fold (resolved_working_dir dir). rewrite Hp. simpl. rewrite Hv. simpl. rewrite Hr.
    destruct (existsb _ _) eqn:Hex.
    + apply allowed_prefix_spec in Hex. done.
    + reflexivity.
Qed.

End Outside.

(** ** The session pool, and the order of the rejections *)

Section Rejections.
Context `{Validation} `{Platform}.
Variable config : ServerConfig.

(** X6. The session pool is called only for the SSH tools and only while
    SSH is enabled. A call that reaches the pool is either [ssh_disconnect],
    which asks once for the connection to be closed, or [ssh_execute] with an
    identifier under which the connections object answers - a configured
    connection, or a name the object inherits from [Object.prototype] - and
    with a command that has passed the validator for the [cmd] profile; it
    first asks the pool for a connection with what the object answered. An
    identifier that is neither configured nor an inherited name never reaches
    the pool. *)
Theorem pool_only_when_enabled (c : ToolCall) (e : Env) (w : World) :
  pool_calls (snd (call_tool config c e w)) ≠ pool_calls w →
  ssh_enabled (ssh config) = true
  ∧ ((∃ connectionId,
        c = ssh_disconnect connectionId
        ∧ pool_calls (snd (call_tool config c e w))
          = (pool_calls w ++ [closeConnection connectionId])%list)
     ∨ (∃ connectionId command value rest,
          c = ssh_execute connectionId command
          ∧ (match value with
             | own_connection connectionConfig =>
                 connections (ssh config) !! connectionId = Some connectionConfig
             | inherited_member name =>
                 name = connectionId
                 ∧ connections (ssh config) !! connectionId = None
                 ∧ connectionId ∈ object_prototype_names
             end)
          ∧ validateCommand config cmd command = inr tt
          ∧ pool_calls (snd (call_tool config c e w))
            = (pool_calls w ++ pool_getConnection connectionId value :: rest)%list)).
Proof.
  destruct c as [shell command dir|limit|connectionId command|connectionId|name];
    unfold call_tool; intros Hs.
  - destruct (rethrow _) as [err|[k wd]]; [done|].
    unfold execute_command_spawn in Hs.
    destruct (env_spawn e) as [|has_stdout has_stderr]; [done|].
    by destruct (negb has_stdout || negb has_stderr)%bool.
  - done.
  - unfold ssh_execute_handler, ssh_execute_try in Hs |- *.
    destruct (ssh_enabled (ssh config)); [|done]. simpl negb in Hs |- *. cbv iota in Hs |- *.
    split; [done|]. right.
    destruct (connection_lookup (connections (ssh config)) connectionId) as [value|] eqn:Hc;
      [|by simpl in Hs].
    destruct (validateCommand config cmd command) as [err|[]] eqn:Hv.
    { simpl in Hs. by rewrite pool_calls_log_untrimmed in Hs. }
    assert (match value with
            | own_connection connectionConfig =>
                connections (ssh config) !! connectionId = Some connectionConfig
            | inherited_member name =>
                name = connectionId
                ∧ connections (ssh config) !! connectionId = None
                ∧ connectionId ∈ object_prototype_names
            end) as Hvalue.
    { unfold connection_lookup in Hc.
      destruct (connections (ssh config) !! connectionId) as [cc|]; [by injection Hc as <-|].
      case_bool_decide; [by injection Hc as <-|done]. }
    exists connectionId, command, value.
    destruct (env_ssh e) as [err|err|out exitCode]; simpl.
    + exists []. rewrite pool_calls_log_untrimmed. done.
    + exists [executeCommand connectionId command].
      rewrite pool_calls_log_untrimmed. simpl. by rewrite <- app_assoc.
    + exists [executeCommand connectionId command].
      rewrite pool_calls_log_trimmed. simpl. by rewrite <- app_assoc.
  - unfold ssh_disconnect_handler in Hs |- *.
    destruct (ssh_enabled (ssh config)); [|done]. simpl negb in Hs |- *. cbv iota in Hs |- *.
    split; [done|]. left. exists connectionId. split; [done|].
    by destruct (env_close e).
  - done.
Qed.

(** X7. No zod error leaves the handler: whatever a tool call settles
    with, it is not a [ZodError]. What zod refuses is reported as an
    invalid-params error whose message is built from zod's own messages: with
    logging on, a [limit] below 1 is answered with the message of the
    lower-bound issue, a [limit] above [maxHistorySize] with the message of
    the upper-bound issue, and the history is not read. *)
Theorem zod_errors_do_not_escape (c : ToolCall) (e : Env) (w : World) :
  (∀ errors, fst (call_tool config c e w) ≠ Settled (inl (ZodError errors)))
  ∧ (∀ v, logCommands (security config) = true →
       c = get_command_history (Some v) →
       (v < 1)%Z → (v <= maxHistorySize (security config))%Z →
       call_tool config c e w
       = (Settled (inl (McpError InvalidParams
                          ("Invalid arguments: " ++ issue_message (too_small 1)))), w))
  ∧ (∀ v, logCommands (security config) = true →
       c = get_command_history (Some v) →
       (1 <= v)%Z → (maxHistorySize (security config) < v)%Z →
       call_tool config c e w
       = (Settled (inl (McpError InvalidParams
                          ("Invalid arguments: "
                             ++ issue_message (too_big (maxHistorySize (security config)))))),
          w)).
Proof.
  split; [|split].
  - intros errors.
    destruct c as [shell command dir|limit|connectionId command|connectionId|name];
      unfold call_tool.
    + destruct (rethrow _) as [err|[k wd]] eqn:Hr.
      * simpl. intros [= ->]. by apply rethrow_not_zod in Hr.
      * unfold execute_command_spawn.
        destruct (env_spawn e) as [|has_stdout has_stderr]; [done|].
        by destruct (negb has_stdout || negb has_stderr)%bool.
    + simpl. intros [= Hr]. by apply rethrow_not_zod in Hr.
    + destruct (ssh_execute_handler _ _ _ _ _) as [r w']. simpl.
      intros [= Hr]. by apply rethrow_not_zod in Hr.
    + destruct (ssh_disconnect_handler _ _ _ _) as [r w']. simpl.
      intros [= Hr]. by apply rethrow_not_zod in Hr.
    + done.
  - intros v Hlog -> Hlo Hhi.
    unfold call_tool, get_command_history_handler, parse_limit. rewrite Hlog. simpl.
    assert ((v <? 1)%Z = true) as -> by (by apply Z.ltb_lt).
    assert ((v >? maxHistorySize (security config))%Z = false) as ->
      by (rewrite Z.gtb_ltb; by apply Z.ltb_ge).
    reflexivity.
  - intros v Hlog -> Hlo Hhi.
    unfold call_tool, get_command_history_handler, parse_limit. rewrite Hlog. simpl.
    assert ((v <? 1)%Z = false) as -> by (by apply Z.ltb_ge).
    assert ((v >? maxHistorySize (security config))%Z = true) as ->
      by (rewrite Z.gtb_ltb; by apply Z.ltb_lt).
    reflexivity.
Qed.

(** X8. [ssh_execute] rejects in a fixed order. While SSH is disabled the
    call fails with the disabled error, whatever the connection and the
    command. With SSH enabled, a connection identifier under which the
    connections object answers nothing - it is not configured and is not a
    name inherited from [Object.prototype] - fails with an invalid-request
    error naming it, before the command is looked at: nothing is logged, even
    for a command the policy forbids, and the pool is not called. An
    inherited name such as [constructor] passes that guard although it is not
    configured: its command is validated, and a command that passes makes the
    handler ask the pool for a connection with the inherited member. *)
Theorem ssh_execute_rejection_order (connectionId command : string) (e : Env) (w : World) :
  (ssh_enabled (ssh config) = false →
   call_tool config (ssh_execute connectionId command) e w
   = (Settled (inl (McpError InvalidRequest "SSH support is disabled in configuration")), w))
  ∧ (ssh_enabled (ssh config) = true →
     connections (ssh config) !! connectionId = None →
     connectionId ∉ object_prototype_names →
     call_tool config (ssh_execute connectionId command) e w
     = (Settled (inl (McpError InvalidRequest
                        ("Unknown SSH connection ID: " ++ connectionId))), w))
  ∧ (ssh_enabled (ssh config) = true →
     connections (ssh config) !! connectionId = None →
     connectionId ∈ object_prototype_names →
     validateCommand config cmd command = inr tt →
     ∃ rest,
       pool_calls (snd (call_tool config (ssh_execute connectionId command) e w))
       = (pool_calls w ++ getConnection_inherited connectionId connectionId :: rest)%list).
Proof.
  unfold call_tool, ssh_execute_handler, connection_lookup. split; [|split].
  - by intros ->.
  - intros -> -> Hn. by rewrite bool_decide_eq_false_2.
  - intros -> -> Hin Hv. rewrite bool_decide_eq_true_2 by done.
    unfold ssh_execute_try. rewrite Hv. simpl.
    destruct (env_ssh e) as [err|err|out exitCode]; simpl.
    + exists []. by rewrite pool_calls_log_untrimmed.
    + exists [executeCommand connectionId command].
      rewrite pool_calls_log_untrimmed. simpl. by rewrite <- app_assoc.
    + exists [executeCommand connectionId command].
      rewrite pool_calls_log_trimmed. simpl. by rewrite <- app_assoc.
Qed.

(** X9. [execute_command] rejects in a fixed order. A shell name that is
    not the name of an enabled shell fails with an invalid-params error
    listing the enabled shells, before the command is looked at. For an
    enabled shell, the error of a command that the validator rejects comes
    before any complaint about the working directory. In both cases nothing
    is spawned, logged or written. *)
Theorem execute_command_rejection_order (shell command : string) (dir : option string)
    (e : Env) (w : World) :
  (shell ∉ enabled_shells config →
   call_tool config (execute_command shell command dir) e w
   = (Settled (inl (McpError InvalidParams
        ("Invalid arguments: "
           ++ issue_message (invalid_enum_value (enabled_shells config) shell)))), w))
  ∧ (∀ shellKey code message,
       parse_shell config shell = inr shellKey →
       validateCommand config shellKey command = inl (McpError code message) →
       call_tool config (execute_command shell command dir) e w
       = (Settled (inl (McpError code message)), w)).
Proof.
  split.
  - intros Hn. unfold call_tool, execute_command_checks.
    by rewrite (parse_shell_rejected config shell Hn).
  - intros shellKey code message Hp Hv.
    unfold call_tool, execute_command_checks. rewrite Hp. simpl. by rewrite Hv.
Qed.

End Rejections.

(** ** The history, path by path *)

Section HistoryPaths.
Context `{Validation} `{Platform}.
Variable config : ServerConfig.

Lemma exec_step_history_quiet (now : Z) (ev : ProcEvent) (x : Exec) (w : World) :
  logCommands (security config) = false →
  commandHistory (snd (exec_step config now ev (x, w))) = commandHistory w.
Proof.
  intros Hoff. destruct ev as [chunk|chunk|code|message|].
  - by destruct (exec_step_data_frame config now (stdout_data chunk) x w eq_refl) as [-> _].
  - by destruct (exec_step_data_frame config now (stderr_data chunk) x w eq_refl) as [-> _].
  - rewrite on_close_history. unfold log_trimmed. by rewrite Hoff.
  - simpl. unfold log_untrimmed. by rewrite Hoff.
  - simpl. destruct (timer_status (timeout x)); [|done..].
    simpl. unfold log_untrimmed. by rewrite Hoff.
Qed.

(** X10. With command logging off, the history is never written: no tool
    call and no event of a running execution changes it. *)
Theorem history_untouched_without_logging (c : ToolCall) (e : Env) (w : World)
    (evs : list (Z * ProcEvent)) (x : Exec) :
  logCommands (security config) = false →
  commandHistory (snd (call_tool config c e w)) = commandHistory w
  ∧ commandHistory (snd (exec_run config evs (x, w))) = commandHistory w.
Proof.
  intros Hoff. split.
  - destruct c as [shell command dir|limit|connectionId command|connectionId|name];
      unfold call_tool.
    + destruct (rethrow _) as [err|[k wd]]; [done|].
      unfold execute_command_spawn.
      destruct (env_spawn e) as [|has_stdout has_stderr]; [done|].
      by destruct (negb has_stdout || negb has_stderr)%bool.
    + done.
    + unfold ssh_execute_handler, ssh_execute_try, log_untrimmed, log_trimmed.
      rewrite Hoff. destruct (negb _); [done|]. destruct (connection_lookup _ _); [|done].
      destruct (validateCommand _ _ _); [done|]. by destruct (env_ssh e).
    + unfold ssh_disconnect_handler. destruct (negb _); [done|]. by destruct (env_close e).
    + done.
  - revert x w. induction evs as [|[now ev] evs IH]; intros x w; [done|].
    rewrite exec_run_cons.
    pose proof (exec_step_history_quiet now ev x w Hoff) as Hs.
    destruct (exec_step config now ev (x, w)) as [x1 w1]. simpl in Hs.
    by rewrite IH.
Qed.

(** X11. The two paths that trim restore the cap whatever they find. With
    logging on and a cap of at least 1, after the close event of a local
    execution, and after an [ssh_execute] call whose command ran, the history
    holds at most [maxHistorySize] entries: the most recent ones of the
    previous history followed by the new entry, in order, even if earlier
    untrimmed pushes had left more than the cap. *)
Theorem trimming_paths_restore_cap :
  logCommands (security config) = true →
  (1 <= maxHistorySize (security config))%Z →
  (∀ now code x w,
     ∃ entry,
       entry_command entry = arg_command x
       ∧ entry_exitCode entry = JS.code_or_minus1 code
       ∧ commandHistory (snd (exec_step config now (close code) (x, w)))
         = drop (List.length (commandHistory w ++ [entry])
                   - Z.to_nat (maxHistorySize (security config)))
                (commandHistory w ++ [entry])
       ∧ (Z.of_nat (List.length
                      (commandHistory (snd (exec_step config now (close code) (x, w)))))
          <= maxHistorySize (security config))%Z)
  ∧ (∀ connectionId command connectionConfig e w out exitCode,
       ssh_enabled (ssh config) = true →
       connections (ssh config) !! connectionId = Some connectionConfig →
       validateCommand config cmd command = inr tt →
       env_ssh e = execute_returns out exitCode →
       let entry := {| entry_command := command; entry_output := out;
                       entry_timestamp := toISOString (env_now e);
                       entry_exitCode := exitCode;
                       entry_connectionId := Some connectionId |} in
       commandHistory (snd (call_tool config (ssh_execute connectionId command) e w))
       = drop (List.length (commandHistory w ++ [entry])
                 - Z.to_nat (maxHistorySize (security config)))
              (commandHistory w ++ [entry])
       ∧ (Z.of_nat (List.length
            (commandHistory (snd (call_tool config (ssh_execute connectionId command) e w))))
          <= maxHistorySize (security config))%Z).
Proof.
  intros Hlog Hm. split.
  - intros now code x w. eexists. rewrite on_close_history.
    split; [|split]; [| |apply (log_trimmed_recent config _ w Hlog Hm)]; reflexivity.
  - intros connectionId command connectionConfig e w out exitCode Hon Hc Hv Hout entry.
    unfold call_tool, ssh_execute_handler, ssh_execute_try.
    rewrite Hon, (connection_lookup_own _ _ _ Hc), Hv, Hout. simpl.
    match goal with
    | |- context [log_trimmed config ?en ?w1] =>
        pose proof (log_trimmed_recent config en w1 Hlog Hm) as Hr
    end.
    exact Hr.
Qed.

(** X12. A cap of 0 does not empty the history: the trim is
    [slice(-0)], which keeps everything, so with logging on every close
    event leaves the previous history followed by its entry. *)
Theorem cap_zero_keeps_everything (now : Z) (code : option Z) (x : Exec) (w : World) :
  logCommands (security config) = true →
  maxHistorySize (security config) = 0%Z →
  commandHistory (snd (exec_step config now (close code) (x, w)))
  = (commandHistory w
       ++ [ {| entry_command := arg_command x;
               entry_output := resultMessage config code x;
               entry_timestamp := toISOString now;
               entry_exitCode := JS.code_or_minus1 code;
               entry_connectionId := None |} ])%list.
Proof.
  intros Hlog Hm. rewrite on_close_history. unfold log_trimmed.
  rewrite Hlog, history_trim_eq, Hm. simpl commandHistory.
  destruct (_ >? _)%Z; [|done].
  unfold JS.slice_from. change (- 0 <? 0)%Z with false. cbv iota.
  rewrite Z.min_l by lia. reflexivity.
Qed.

End HistoryPaths.

(** ** The promise, the kill and the process error *)

Section Settling.
Context `{Validation} `{Platform}.
Variable config : ServerConfig.

Lemma promise_stable_step (now : Z) (ev : ProcEvent) (x : Exec) (w : World) :
  promise x ≠ Pending →
  promise (fst (exec_step config now ev (x, w))) = promise x.
Proof.
  intros Hp. destruct ev as [chunk|chunk|code|message|].
  - by destruct (exec_step_data_frame config now (stdout_data chunk) x w eq_refl)
      as (_ & _ & _ & -> & _).
  - by destruct (exec_step_data_frame config now (stderr_data chunk) x w eq_refl)
      as (_ & _ & _ & -> & _).
  - simpl. by destruct (promise x).
  - simpl. by destruct (promise x).
  - simpl. destruct (timer_status (timeout x)); [|done..].
    simpl. by destruct (promise x).
Qed.

(** X13. The call is settled once. Whatever has settled the promise - the
    close handler, the process-error handler or the timeout - no later event
    of the execution, in any number and order, changes the outcome. *)
Theorem promise_settles_once (evs : list (Z * ProcEvent)) (x : Exec) (w : World) :
  promise x ≠ Pending →
  promise (fst (exec_run config evs (x, w))) = promise x.
Proof.
  revert x w. induction evs as [|[now ev] evs IH]; intros x w Hp; [done|].
  rewrite exec_run_cons.
  pose proof (promise_stable_step now ev x w Hp) as Hs.
  destruct (exec_step config now ev (x, w)) as [x1 w1]. simpl in Hs.
  rewrite IH by (by rewrite Hs). exact Hs.
Qed.

Lemma kill_step (now : Z) (ev : ProcEvent) (x : Exec) (w : World) :
  (timer_status (timeout x) = Fired ∧ kill_calls x = 1
   ∨ timer_status (timeout x) ≠ Fired ∧ kill_calls x = 0) →
  let x' := fst (exec_step config now ev (x, w)) in
  timer_status (timeout x') = Fired ∧ kill_calls x' = 1
  ∨ timer_status (timeout x') ≠ Fired ∧ kill_calls x' = 0.
Proof.
  intros Hk. destruct ev as [chunk|chunk|code|message|]; cbv zeta.
  - by destruct (exec_step_data_frame config now (stdout_data chunk) x w eq_refl)
      as (_ & -> & -> & _).
  - by destruct (exec_step_data_frame config now (stderr_data chunk) x w eq_refl)
      as (_ & -> & -> & _).
  - simpl. unfold clearTimeout.
    destruct (timer_status (timeout x)) eqn:Et; simpl; rewrite ?Et; try done.
    right. destruct Hk as [[? _]|[_ ?]]; done.
  - simpl. done.
  - simpl. destruct (timer_status (timeout x)) eqn:Et; simpl; rewrite ?Et; try done.
    left. destruct Hk as [[? _]|[_ ->]]; done.
Qed.

(** X14. An execution kills its process at most once, and only from the
    timeout: after any events whatever, [kill] has been called once if the
    timer has fired and not at all otherwise. *)
Theorem killed_at_most_once (shell command : string) (dir : option string)
    (e : Env) (w w0 : World) (x0 : Exec) (evs : list (Z * ProcEvent)) :
  call_tool config (execute_command shell command dir) e w = (Running x0, w0) →
  let x := fst (exec_run config evs (x0, w0)) in
  kill_calls x <= 1
  ∧ (kill_calls x = 1 ↔ timer_status (timeout x) = Fired).
Proof.
  intros Hstart.
  destruct (call_tool_running _ _ _ _ _ _ _ _ Hstart) as (Ht0 & _ & Hk0 & _ & _).
  assert (timer_status (timeout x0) = Fired ∧ kill_calls x0 = 1
          ∨ timer_status (timeout x0) ≠ Fired ∧ kill_calls x0 = 0) as Hinit.
  { right. by rewrite Ht0, Hk0. }
  clear Ht0 Hk0 Hstart. revert x0 w0 Hinit.
  induction evs as [|[now ev] evs IH]; intros x0 w0 Hinit.
  - cbv zeta. simpl. destruct Hinit as [[Hf ->]|[Hf ->]]; split; try lia; try done.
  - cbv zeta. rewrite exec_run_cons.
    pose proof (kill_step now ev x0 w0 Hinit) as Hs. cbv zeta in Hs.
    destruct (exec_step config now ev (x0, w0)) as [x1 w1]. by apply IH.
Qed.

(** X15. A process error does not cancel the timer. On a running
    execution the error handler rejects the call with an internal error
    carrying the error's message and logs it, untrimmed, with exit code -1;
    the timer stays armed, so when it fires later (output events may lie in
    between) it still kills the process and logs a second entry, the timeout,
    for the same command, while the call's outcome stays the process
    error. *)
Theorem process_error_leaves_timer_armed (x : Exec) (w : World) (t1 t2 : Z)
    (message : string) (ds : list (Z * ProcEvent)) :
  logCommands (security config) = true →
  timer_status (timeout x) = Armed →
  promise x = Pending →
  data_only ds →
  let s1 := exec_step config t1 (process_error message) (x, w) in
  let s3 := exec_step config t2 timer_fires (exec_run config ds s1) in
  let failure := McpError InternalError ("Shell process error: " ++ message) in
  promise (fst s1) = Rejected failure
  ∧ timer_status (timeout (fst s1)) = Armed
  ∧ promise (fst s3) = Rejected failure
  ∧ kill_calls (fst s3) = S (kill_calls x)
  ∧ commandHistory (snd s3)
    = (commandHistory w
         ++ [ {| entry_command := arg_command x;
                 entry_output := "Shell process error: " ++ message;
                 entry_timestamp := toISOString t1;
                 entry_exitCode := (-1)%Z;
                 entry_connectionId := None |};
              {| entry_command := arg_command x;
                 entry_output := timeoutMessage config;
                 entry_timestamp := toISOString t2;
                 entry_exitCode := (-1)%Z;
                 entry_connectionId := None |} ])%list.
Proof.
  intros Hlog Harmed Hpending Hds. cbv zeta.
  simpl (exec_step config t1 (process_error message) (x, w)).
  unfold on_error. rewrite Hpending. simpl reject.
  split; [done|]. split; [done|].
  match goal with
  | |- context [exec_run config ds (?x1, ?w1)] =>
      pose proof (exec_run_data_frame config ds x1 w1 Hds) as Hf;
      destruct (exec_run config ds (x1, w1)) as [x2 w2]
  end.
  cbv zeta in Hf. simpl in Hf. destruct Hf as (Hh & Ht & Hk & Hp & Ha).
  simpl exec_step. rewrite Ht, Harmed. unfold on_timeout. simpl.
  rewrite Hp, Hk, Ha. simpl. repeat split.
  rewrite log_untrimmed_history by done. rewrite Hh.
  rewrite log_untrimmed_history by done. by rewrite <- app_assoc.
Qed.

(** X16. What the close handler logs is what it returns. With logging on
    and a cap of at least 1, the close event of an execution whose call is
    still pending resolves the call with a result whose text, exit code and
    command are those of the entry that now ends the history; the result is
    flagged as an error exactly when the exit code is not 0, a missing exit
    code (a killed process) counting as -1. *)
Theorem close_logs_what_it_returns (now : Z) (code : option Z) (x : Exec) (w : World) :
  logCommands (security config) = true →
  (1 <= maxHistorySize (security config))%Z →
  promise x = Pending →
  let s := exec_step config now (close code) (x, w) in
  ∃ r entry,
    promise (fst s) = Resolved r
    ∧ last (commandHistory (snd s)) = Some entry
    ∧ entry_output entry = content_text r
    ∧ entry_command entry = arg_command x
    ∧ metadata r = Some {| meta_exitCode := entry_exitCode entry;
                           meta_shell := Some (arg_shell x);
                           meta_workingDirectory := Some (workingDir x);
                           meta_connectionId := None |}
    ∧ entry_exitCode entry = default (-1)%Z code
    ∧ isError r = Some (negb (bool_decide (code = Some 0%Z))).
Proof.
  intros Hlog Hm Hpending. cbv zeta.
  pose proof (on_close_history config now code x w) as Hh.
  match type of Hh with
  | _ = commandHistory (log_trimmed config ?en w) =>
      destruct (log_trimmed_recent config en w Hlog Hm) as [Hr _];
      rewrite Hr in Hh; clear Hr
  end.
  eexists _, _. split; [|split].
  - simpl. rewrite Hpending. reflexivity.
  - rewrite Hh. rewrite drop_app_le by (rewrite length_app; simpl; lia).
    apply last_snoc.
  - simpl. repeat split.
    f_equal. f_equal. destruct code as [[| |]|]; done.
Qed.

End Settling.

(** ** Spill files and the retention sweep *)

Section Sweep.
Context `{Platform}.
Variable config : ServerConfig.

Lemma sweep_each_subseteq (cutoff : Z) (paths : list string) (fs : gmap string File) :
  sweep_each cutoff paths fs ⊆ fs.
Proof.
  revert fs. induction paths as [|p ps IH]; intros fs; simpl; [done|].
  destruct (fs !! p) as [f|]; [|done].
  etrans; [apply IH|]. destruct (_ <? _)%Z; [apply delete_subseteq | done].
Qed.

Lemma sweep_each_lookup (cutoff : Z) (paths : list string) (fs : gmap string File) :
  NoDup paths →
  (∀ p, p ∈ paths → is_Some (fs !! p)) →
  ∀ path,
    sweep_each cutoff paths fs !! path
    = match fs !! path with
      | Some f =>
          if (bool_decide (path ∈ paths) && (file_mtime f <? cutoff)%Z)%bool
          then None else Some f
      | None => None
      end.
Proof.
  revert fs. induction paths as [|p ps IH]; intros fs Hnd Hall path.
  - simpl. by destruct (fs !! path).
  - apply NoDup_cons in Hnd as [Hp Hnd].
    destruct (Hall p) as [f Hf]; [by left|]. simpl. rewrite Hf.
    rewrite IH; [|done|].
    2:{ intros q Hq. assert (q ≠ p) by (intros ->; done).
        destruct (_ <? _)%Z; [rewrite lookup_delete_ne by done|]; apply Hall; by right. }
    destruct (decide (path = p)) as [->|Hne].
    + rewrite (bool_decide_eq_false_2 (p ∈ ps)) by done.
      rewrite (bool_decide_eq_true_2 (p ∈ p :: ps)) by (by left). rewrite Hf. simpl.
      destruct (file_mtime f <? cutoff)%Z eqn:Hold.
      * by rewrite lookup_delete_eq.
      * by rewrite Hf.
    + assert (bool_decide (path ∈ p :: ps) = bool_decide (path ∈ ps)) as ->.
      { apply bool_decide_ext. rewrite elem_of_cons. tauto. }
      destruct (file_mtime f <? cutoff)%Z; [by rewrite lookup_delete_ne by done | done].
Qed.

Lemma NoDup_bool_filter {A} (f : A → bool) (l : list A) :
  NoDup l → NoDup (List.filter f l).
Proof.
  induction 1 as [|x l Hx Hnd IH]; simpl; [constructor|].
  destruct (f x); [|done]. constructor; [|done].
  rewrite list_elem_of_In, filter_In, <- list_elem_of_In. tauto.
Qed.

(** The paths the sweep visits are the keys of the file system that are
    output entries of the directory. *)
Lemma swept_paths (dir : string) (l : list (string * File)) :
  entries_are_paths dir →
  map (path_join dir)
      (List.filter (λ file, JS.startsWith file "output-")
                   (omap (λ pf, entry_name dir (fst pf)) l))
  = List.filter (is_output_entry dir) (map fst l).
Proof.
  intros Hlaw. induction l as [|[p f] l IH]; [done|].
  simpl. destruct (entry_name dir p) as [name|] eqn:Hn.
  - assert (is_output_entry dir p = JS.startsWith name "output-") as ->
      by (unfold is_output_entry; by rewrite Hn).
    simpl. destruct (JS.startsWith name "output-"); simpl; [|exact IH].
    rewrite (Hlaw p name Hn). f_equal. exact IH.
  - assert (is_output_entry dir p = false) as ->
      by (unfold is_output_entry; by rewrite Hn).
    exact IH.
Qed.

Lemma swept_member (dir : string) (fs : gmap string File) (p : string) :
  p ∈ List.filter (is_output_entry dir) (map fst (map_to_list fs))
  ↔ is_Some (fs !! p) ∧ is_output_entry dir p = true.
Proof.
  rewrite list_elem_of_In, filter_In, <- list_elem_of_In, list_elem_of_fmap.
  split.
  - intros [([q f] & -> & Hq) Ho]. apply elem_of_map_to_list in Hq. eauto.
  - intros [[f Hf] Ho]. split; [|done]. exists (p, f). split; [done|].
    by apply elem_of_map_to_list.
Qed.

Lemma clean_as_sweep (now : Z) (fs : gmap string File) (dir : string) :
  enableOutputFiles (security config) = true →
  JS.present (outputDirectory (security config)) = Some dir →
  entries_are_paths dir →
  clean_old_output_files config now fs
  = sweep_each (retention_cutoff config now)
               (List.filter (is_output_entry dir) (map fst (map_to_list fs))) fs.
Proof.
  intros Hspill Hdir Hlaw. unfold clean_old_output_files, readdirSync.
  rewrite Hspill, Hdir. by rewrite (swept_paths dir _ Hlaw).
Qed.

Lemma swept_decide (dir : string) (fs : gmap string File) (p : string) (f : File) :
  fs !! p = Some f →
  bool_decide (p ∈ List.filter (is_output_entry dir) (map fst (map_to_list fs)))
  = is_output_entry dir p.
Proof.
  intros Hf. destruct (is_output_entry dir p) eqn:Ho.
  - apply bool_decide_eq_true_2, swept_member. eauto.
  - apply bool_decide_eq_false_2. rewrite swept_member. intros [_ ?]. congruence.
Qed.

(** X17. The sweep removes the old output files and nothing else. With
    spilling on, an output directory configured, and a directory listing
    whose entries join back to their paths, the file system after the sweep
    is the one before it without the files that are entries of the output
    directory named [output-...] and were last modified before the retention
    window; every other file is there as it was. *)
Theorem sweep_removes_old_output_files (now : Z) (fs : gmap string File) (dir : string) :
  enableOutputFiles (security config) = true →
  JS.present (outputDirectory (security config)) = Some dir →
  entries_are_paths dir →
  ∀ path,
    clean_old_output_files config now fs !! path
    = match fs !! path with
      | Some f =>
          if (is_output_entry dir path && (file_mtime f <? retention_cutoff config now)%Z)%bool
          then None else Some f
      | None => None
      end.
Proof.
  intros Hspill Hdir Hlaw path.
  rewrite (clean_as_sweep now fs dir Hspill Hdir Hlaw).
  rewrite sweep_each_lookup.
  - destruct (fs !! path) as [f|] eqn:Hf; [|done].
    by rewrite (swept_decide dir fs path f Hf).
  - apply NoDup_bool_filter, NoDup_fst_map_to_list.
  - intros p Hp. by apply swept_member in Hp as [? _].
Qed.

(** X18. The sweep only removes. Whatever the directory listing gives,
    every file present after the sweep was present before it, with the same
    content and modification time; and with spilling off or without an
    output directory the sweep leaves the file system as it is. *)
Theorem sweep_only_removes (now : Z) (fs : gmap string File) :
  (∀ path f, clean_old_output_files config now fs !! path = Some f → fs !! path = Some f)
  ∧ (enableOutputFiles (security config) = false
     ∨ JS.present (outputDirectory (security config)) = None →
     clean_old_output_files config now fs = fs).
Proof.
  split.
  - intros path f Hf. eapply lookup_weaken; [exact Hf|].
    unfold clean_old_output_files.
    destruct (enableOutputFiles (security config));
      destruct (JS.present (outputDirectory (security config))); try done.
    apply sweep_each_subseteq.
  - unfold clean_old_output_files. intros [-> | ->]; [done|].
    by destruct (enableOutputFiles _).
Qed.




Lemma files_log_trimmed (entry : CommandHistoryEntry) (w : World) :
  files (log_trimmed config entry w) = files w.
Proof. log_frame. Qed.


End Sweep.

(** ** When the file system is left alone *)

Section FileSystem.
Context `{Validation} `{Platform}.
Variable config : ServerConfig.

Lemma no_spill_step (now : Z) (ev : ProcEvent) (x : Exec) (w : World) :
  enableOutputFiles (security config) = false
  ∨ JS.present (outputDirectory (security config)) = None →
  outputFilePath x = None →
  files (snd (exec_step config now ev (x, w))) = files w
  ∧ outputFilePath (fst (exec_step config now ev (x, w))) = None.
Proof.
  intros Hoff Hp. destruct ev as [chunk|chunk|code|message|].
  - simpl. unfold on_stdout, saveToFile. rewrite Hp.
    destruct (_ <=? _)%Z; [done|].
    destruct Hoff as [-> | ->].
    + by destruct (negb (truncated x)).
    + destruct (enableOutputFiles (security config)); by destruct (negb (truncated x)).
  - simpl. unfold on_stderr.
    destruct (_ <=? _)%Z; [done|]. by destruct (negb (truncated x)).
  - simpl. rewrite files_log_trimmed.
    split; [|done]. unfold clean_old_output_files.
    destruct Hoff as [-> | ->]; [done|]. by destruct (enableOutputFiles (security config)).
  - simpl. split; [|done]. apply log_untrimmed_outside.
  - simpl. destruct (timer_status (timeout x)); [|done..].
    simpl. split; [|done]. apply log_untrimmed_outside.
Qed.

(** X21. Without spilling, or without an output directory, an execution
    never touches the file system: whatever events arrive, output beyond the
    cap included, no file is written, appended to or removed, and no spill
    path is recorded. And no tool call writes a file by itself: the file
    system is the same right after [call_tool] as before it. *)
Theorem file_system_left_alone (evs : list (Z * ProcEvent)) (x : Exec) (w : World)
    (c : ToolCall) (e : Env) :
  (enableOutputFiles (security config) = false
   ∨ JS.present (outputDirectory (security config)) = None →
   outputFilePath x = None →
   files (snd (exec_run config evs (x, w))) = files w
   ∧ outputFilePath (fst (exec_run config evs (x, w))) = None)
  ∧ files (snd (call_tool config c e w)) = files w.
Proof.
  split.
  - intros Hoff. revert x w. induction evs as [|[now ev] evs IH]; intros x w Hp; [done|].
    rewrite exec_run_cons.
    destruct (no_spill_step now ev x w Hoff Hp) as [Hf Hp'].
    destruct (exec_step config now ev (x, w)) as [x1 w1]. simpl in Hf, Hp'.
    destruct (IH x1 w1 Hp') as [-> ->]. done.
  - destruct c as [shell command dir|limit|connectionId command|connectionId|name];
      unfold call_tool.
    + destruct (rethrow _) as [err|[k wd]]; [done|].
      unfold execute_command_spawn.
      destruct (env_spawn e) as [|has_stdout has_stderr]; [done|].
      by destruct (negb has_stdout || negb has_stderr)%bool.
    + done.
    + pose proof (ssh_execute_outside config connectionId command e w) as [_ Hf].
      by destruct (ssh_execute_handler config connectionId command e w).
    + unfold ssh_disconnect_handler. destruct (negb _); [done|]. by destruct (env_close e).
    + done.
Qed.

End FileSystem.

(** ** The sample platform lists what it joins *)

Lemma drop_prefix_spec (p s rest : string) :
  SamplePlatform.drop_prefix p s = Some rest ↔ s = p ++ rest.
Proof.
  revert s. induction p as [|a p IH]; intros s.
  - simpl. split; [by intros [= ->] | by intros ->].
  - destruct s as [|b s]; simpl.
    + split; [done | rewrite str_app_cons; discriminate].
    + rewrite str_app_cons. destruct (Ascii.eqb a b) eqn:Hab.
      * apply Ascii.eqb_eq in Hab. subst b. rewrite IH. split; [by intros -> | by intros [= ->]].
      * apply Ascii.eqb_neq in Hab. split; [done | intros [= -> _]; done].
Qed.

Lemma sample_entries_are_paths (dir : string) :
  entries_are_paths (H := SamplePlatform.platform) dir.
Proof.
  intros path name Hn. simpl in Hn. unfold SamplePlatform.child in Hn.
  apply drop_prefix_spec in Hn. subst path. simpl. unfold SamplePlatform.join.
  by rewrite str_app_assoc.
Qed.


Module ExtraExamples.
Import SpecValidation SamplePlatform Examples MoreExamples.

Lemma spawn_only_after_checks_witness :
  ∃ shellKey,
    validateCommand roomy shellKey "dir" = inr tt
    ∧ shell_enabled (shell_config (shells roomy) shellKey) = true
    ∧ spawn_calls (snd (call_tool roomy (execute_command "cmd" "dir" None) answers empty_world))
      = [ {| spawn_file := shell_command (shell_config (shells roomy) shellKey);
             spawn_args := (shell_args (shell_config (shells roomy) shellKey) ++ ["dir"])%list;
             spawn_cwd := "C:\work" |} ].
Proof.
  destruct (spawn_only_after_checks roomy (execute_command "cmd" "dir" None) answers
              empty_world) as (shell & command & dir & k & Hc & _ & Hen & Hv & _ & Hs).
  - vm_compute. discriminate.
  - injection Hc as <- <- <-. exists k. split; [exact Hv|]. split; [exact Hen|]. exact Hs.
Defined.

(** [C:\workshop] is not under [C:\work], but its text begins with it. *)
Lemma working_directory_by_prefix_witness :
  (∃ call,
     spawn_cwd call = "C:\workshop"
     ∧ spawn_calls (snd (call_tool roomy (execute_command "cmd" "dir" (Some "C:\workshop"))
                           answers empty_world)) = [call])
  ∧ call_tool roomy (execute_command "cmd" "dir" (Some "D:\data")) answers empty_world
    = (Settled (inl (McpError InvalidRequest (working_dir_message "D:\data"))), empty_world).
Proof.
  split.
  - refine (proj1 (working_directory_by_prefix roomy "cmd" "dir" (Some "C:\workshop") cmd
                     answers empty_world _ _ _) _).
    + reflexivity.
    + reflexivity.
    + reflexivity.
    + exists "C:\work", "shop". split; [|reflexivity]. vm_compute. left.
  - refine (proj2 (working_directory_by_prefix roomy "cmd" "dir" (Some "D:\data") cmd
                     answers empty_world _ _ _) _).
    + reflexivity.
    + reflexivity.
    + reflexivity.
    + intros (allowedPath & rest & Hin & Heq). vm_compute in Hin.
      apply list_elem_of_In in Hin. destruct Hin as [<-|[]]. discriminate Heq.
Defined.

Lemma pool_only_when_enabled_witness :
  ssh_enabled (ssh roomy) = true
  ∧ validateCommand roomy cmd "uname -a" = inr tt.
Proof.
  destruct (pool_only_when_enabled roomy (ssh_execute "raspberry-pi" "uname -a") answers
              empty_world)
    as [Hon [(id & Hc & _)|(id & command & value & rest & Hc & _ & Hv & _)]].
  - vm_compute. discriminate.
  - discriminate Hc.
  - injection Hc as <- <-. split; [exact Hon | exact Hv].
Defined.

Lemma zod_errors_do_not_escape_witness :
  call_tool roomy (get_command_history (Some (-3)%Z)) answers three_entries
  = (Settled (inl (McpError InvalidParams
                     "Invalid arguments: Number must be greater than or equal to 1")),
     three_entries).
Proof.
  refine (proj1 (proj2 (zod_errors_do_not_escape roomy (get_command_history (Some (-3)%Z))
                          answers three_entries)) (-3)%Z _ _ _ _).
  - reflexivity.
  - reflexivity.
  - vm_compute. reflexivity.
  - vm_compute. discriminate.
Defined.

Lemma ssh_execute_rejection_order_witness :
  call_tool strict (ssh_execute "laptop" "format c: && dir") answers empty_world
  = (Settled (inl (McpError InvalidRequest "Unknown SSH connection ID: laptop")), empty_world)
  ∧ ∃ rest,
      pool_calls (snd (call_tool roomy (ssh_execute "constructor" "uname -a") answers
                                 empty_world))
      = (pool_calls empty_world
           ++ getConnection_inherited "constructor" "constructor" :: rest)%list.
Proof.
  split.
  - refine (proj1 (proj2 (ssh_execute_rejection_order strict "laptop" "format c: && dir"
                            answers empty_world)) _ _ _).
    + reflexivity.
    + vm_compute. reflexivity.
    + vm_compute. intros H. by repeat (inversion H as [|? ? ? H']; subst; clear H; rename H' into H).
  - refine (proj2 (proj2 (ssh_execute_rejection_order roomy "constructor" "uname -a"
                            answers empty_world)) _ _ _ _).
    + reflexivity.
    + vm_compute. reflexivity.
    + vm_compute. by left.
    + vm_compute. reflexivity.
Defined.

Lemma execute_command_rejection_order_witness :
  call_tool cmd_only (execute_command "gitbash" "format c:" (Some "D:\data")) answers
            empty_world
  = (Settled (inl (McpError InvalidParams
                     "Invalid arguments: Invalid enum value. Expected 'cmd', received 'gitbash'")),
     empty_world)
  ∧ call_tool cmd_only (execute_command "cmd" "format c:" (Some "D:\data")) answers
              empty_world
    = (Settled (inl (McpError InvalidRequest
                       ("Command is blocked: " ++ JS.dquote ++ "format" ++ JS.dquote))),
       empty_world).
Proof.
  split.
  - refine (proj1 (execute_command_rejection_order cmd_only "gitbash" "format c:"
                     (Some "D:\data") answers empty_world) _).
    vm_compute. intros Hin. apply list_elem_of_In in Hin. destruct Hin as [Heq|[]].
    discriminate Heq.
  - refine (proj2 (execute_command_rejection_order cmd_only "cmd" "format c:"
                     (Some "D:\data") answers empty_world) cmd _ _ _ _).
    + reflexivity.
    + reflexivity.
Defined.

End ExtraExamples.

Module ExtraRuns.
Import SpecValidation SamplePlatform Examples MoreExamples.

Lemma history_untouched_without_logging_witness :
  commandHistory (snd (call_tool quiet (ssh_execute "raspberry-pi" "uname -a") refused
                         three_entries))
  = commandHistory three_entries
  ∧ commandHistory (snd (exec_run quiet [(30000%Z, timer_fires); (30001%Z, close None)]
                           (started, three_entries)))
    = commandHistory three_entries.
Proof.
  refine (history_untouched_without_logging quiet (ssh_execute "raspberry-pi" "uname -a")
            refused three_entries [(30000%Z, timer_fires); (30001%Z, close None)] started _).
  reflexivity.
Defined.

(** Three entries under a cap of 1: the close handler leaves one. *)
Lemma trimming_paths_restore_cap_witness :
  (Z.of_nat (List.length
     (commandHistory (snd (exec_step capped 5%Z (close (Some 0%Z)) (started, three_entries)))))
   <= 1)%Z.
Proof.
  destruct (proj1 (trimming_paths_restore_cap capped eq_refl
                     ltac:(vm_compute; discriminate))
              5%Z (Some 0%Z) started three_entries) as (entry & _ & _ & _ & Hle).
  exact Hle.
Defined.

Lemma cap_zero_keeps_everything_witness :
  List.length
    (commandHistory (snd (exec_step cap_zero 5%Z (close (Some 0%Z)) (started, three_entries))))
  = 4.
Proof.
  rewrite (cap_zero_keeps_everything cap_zero 5%Z (Some 0%Z) started three_entries
             eq_refl eq_refl).
  reflexivity.
Defined.

Lemma promise_settles_once_witness :
  promise (fst (exec_run roomy [(20%Z, close (Some 0%Z)); (30000%Z, timer_fires)]
                  (set_promise (Rejected (Error "boom")) started, after_spawn)))
  = Rejected (Error "boom").
Proof.
  refine (promise_settles_once roomy [(20%Z, close (Some 0%Z)); (30000%Z, timer_fires)]
            (set_promise (Rejected (Error "boom")) started) after_spawn _).
  simpl. discriminate.
Defined.

Lemma killed_at_most_once_witness :
  let x := fst (exec_run roomy
                  [(30000%Z, timer_fires); (30001%Z, timer_fires); (30002%Z, close None);
                   (30003%Z, timer_fires)] (started, after_spawn)) in
  kill_calls x <= 1 ∧ (kill_calls x = 1 ↔ timer_status (timeout x) = Fired).
Proof.
  refine (killed_at_most_once roomy "cmd" "dir" None answers empty_world after_spawn
            started _ _).
  reflexivity.
Defined.

Lemma process_error_leaves_timer_armed_witness :
  let s1 := exec_step roomy 10%Z (process_error "spawn ENOENT") (started, after_spawn) in
  let s3 := exec_step roomy 30000%Z timer_fires (exec_run roomy [] s1) in
  promise (fst s3) = Rejected (McpError InternalError "Shell process error: spawn ENOENT")
  ∧ kill_calls (fst s3) = 1
  ∧ map entry_output (commandHistory (snd s3))
    = ["Shell process error: spawn ENOENT"; timeoutMessage roomy].
Proof.
  destruct (process_error_leaves_timer_armed roomy started after_spawn 10%Z 30000%Z
              "spawn ENOENT" [] eq_refl eq_refl eq_refl ltac:(constructor))
    as (_ & _ & Hp & Hk & Hh).
  cbv zeta. split; [exact Hp|]. split; [exact Hk|]. rewrite Hh. reflexivity.
Defined.

Lemma close_logs_what_it_returns_witness :
  let s := exec_step roomy 5%Z (close (Some 0%Z)) (started, three_entries) in
  ∃ r entry,
    promise (fst s) = Resolved r
    ∧ last (commandHistory (snd s)) = Some entry
    ∧ entry_output entry = content_text r.
Proof.
  destruct (close_logs_what_it_returns roomy 5%Z (Some 0%Z) started three_entries
              eq_refl ltac:(vm_compute; discriminate) eq_refl)
    as (r & entry & Hr & He & Ho & _).
  exists r, entry. split; [exact Hr|]. split; [exact He | exact Ho].
Defined.

(** A sweep at 100000000 ms with a retention of 24 hours: the cutoff is
    13600000 ms. *)
Lemma sweep_removes_old_output_files_witness :
  clean_old_output_files spilling 100000000 three_files !! "C:\out\output-old.txt" = None
  ∧ clean_old_output_files spilling 100000000 three_files !! "C:\out\output-new.txt"
    = Some {| file_content := "new"; file_mtime := 90000000 |}
  ∧ clean_old_output_files spilling 100000000 three_files !! "C:\out\notes.txt"
    = Some {| file_content := "keep"; file_mtime := 1000 |}.
Proof.
  pose proof (sweep_removes_old_output_files spilling 100000000 three_files "C:\out"
                eq_refl eq_refl (sample_entries_are_paths "C:\out")) as Hs.
  rewrite !Hs. vm_compute. repeat split.
Defined.

Lemma sweep_only_removes_witness :
  clean_old_output_files roomy 100000000 three_files = three_files.
Proof.
  refine (proj2 (sweep_only_removes roomy 100000000 three_files) _).
  left. reflexivity.
Defined.



Lemma file_system_left_alone_witness :
  files (snd (exec_run roomy
                [(1%Z, stdout_data "aaaaaaaa"); (2%Z, stdout_data "bbbbb");
                 (3%Z, close (Some 0%Z))] (started, set_files three_files after_spawn)))
  = three_files.
Proof.
  refine (proj1 (proj1 (file_system_left_alone roomy
                          [(1%Z, stdout_data "aaaaaaaa"); (2%Z, stdout_data "bbbbb");
                           (3%Z, close (Some 0%Z))]
                          started (set_files three_files after_spawn)
                          (unknown_tool "x") answers) _ _)).
  - left. reflexivity.
  - reflexivity.
Defined.

End ExtraRuns.

(** ** After a spill, and at the start of an execution *)

Section SpillAndStart.
Context `{Validation} `{Platform}.
Variable config : ServerConfig.

(** X22. After a spill nothing of standard output is dropped, but not
    all of it reaches the file. With spilling on and a spill file in place,
    whatever output events follow, each later standard-output chunk goes to
    exactly one place: a chunk that fits what is left of the shared budget
    when it arrives is appended to the buffer in memory, a chunk that does
    not fit is appended to the file. So the buffer grows by the text of the
    chunks that fit, the file by the text of those that do not, each in their
    order of arrival, and the two texts together are as long as the later
    standard-output chunks. *)
Theorem after_spill_nothing_is_dropped (path : string) (evs : list (Z * ProcEvent))
    (x : Exec) (w : World) (acc : string) :
  enableOutputFiles (security config) = true →
  truncated x = true →
  outputFilePath x = Some path →
  file_content <$> files w !! path = Some acc →
  data_only evs →
  let s := exec_run config evs (x, w) in
  let kept := concat_chunks (stdout_chunks (accepted config (outputSize x) evs)) in
  let spilled := concat_chunks (stdout_chunks (refused config (outputSize x) evs)) in
  output (fst s) = output x ++ kept
  ∧ file_content <$> files (snd s) !! path = Some (acc ++ spilled)
  ∧ (JS.len kept + JS.len spilled = JS.len (concat_chunks (stdout_chunks evs)))%Z.
Proof.
  intros Hspill Ht Hp Hfile Hd. revert x w acc Ht Hp Hfile.
  induction Hd as [|[now ev] evs Hev _ IH]; intros x w acc Ht Hp Hfile; cbv zeta.
  - simpl. by rewrite !str_app_nil_r.
  - rewrite exec_run_cons.
    unfold accepted, refused; fold (accepted config); fold (refused config).
    destruct ev as [chunk|chunk| | |]; try discriminate;
      change (chunk_of (snd (now, stdout_data chunk))) with chunk;
      change (chunk_of (snd (now, stderr_data chunk))) with chunk.
    + rewrite (stdout_chunks_cons_stdout now chunk evs), concat_chunks_cons, len_app.
      simpl exec_step. unfold on_stdout.
      destruct (_ <=? _)%Z.
      * destruct (IH (set_capture (output x ++ chunk) (error x)
                        (outputSize x + JS.len chunk) (truncated x) (outputFilePath x) x)
                     (set_files (files w) w) acc) as (Ho & Hf & Hl);
          [done | done | done |].
        cbv zeta in Ho, Hf. simpl in Ho, Hf, Hl.
        rewrite Ho, Hf, stdout_chunks_cons_stdout, concat_chunks_cons, len_app.
        simpl. rewrite str_app_assoc. repeat split. lia.
      * rewrite Hspill, Ht, Hp. simpl negb. cbv iota.
        destruct (IH x (set_files (appendFileSync path chunk now (files w)) w)
                     (acc ++ chunk)) as (Ho & Hf & Hl); [done | done | |].
        { simpl. unfold appendFileSync. rewrite lookup_insert_eq. simpl.
          destruct (files w !! path) as [f|]; simpl in Hfile; [|done].
          by injection Hfile as ->. }
        cbv zeta in Ho, Hf.
        rewrite Ho, Hf, stdout_chunks_cons_stdout, concat_chunks_cons, len_app.
        rewrite str_app_assoc. repeat split. lia.
    + rewrite (stdout_chunks_cons_stderr now chunk evs). simpl exec_step. unfold on_stderr.
      rewrite Ht. simpl negb. cbv iota.
      destruct (_ <=? _)%Z; [|by apply IH].
      destruct (IH (set_capture (output x) (error x ++ chunk)
                      (outputSize x + JS.len chunk) true (outputFilePath x) x) w acc)
        as (Ho & Hf & Hl); [done | done | done |].
      cbv zeta in Ho, Hf. simpl in Ho, Hf, Hl.
      rewrite stdout_chunks_cons_stderr. done.
Qed.

(** X23. When an execution starts. An [execute_command] call leaves a
    running execution exactly when the checks before the promise pass and
    [spawn] returns a process with both output streams; the execution then
    starts with empty buffers, a pending promise and the timer armed, and
    [spawn] has been called once. If [spawn] throws, or a stream is missing,
    the call fails with an internal error instead; [spawn] has been called
    all the same, and nothing is logged. *)
Theorem execute_command_spawn_outcomes (shell command : string) (dir : option string)
    (e : Env) (w : World) (shellKey : ShellKey) (workingDir : string) :
  execute_command_checks config shell command dir = inr (shellKey, workingDir) →
  let call := {| spawn_file := shell_command (shell_config (shells config) shellKey);
                 spawn_args :=
                   (shell_args (shell_config (shells config) shellKey) ++ [command])%list;
                 spawn_cwd := workingDir |} in
  (env_spawn e = spawned true true →
   call_tool config (execute_command shell command dir) e w
   = (Running {| arg_command := command; arg_shell := shell; workingDir := workingDir;
                 output := EmptyString; error := EmptyString; outputSize := 0;
                 truncated := false; outputFilePath := None;
                 timeout := {| timer_ms := (commandTimeout (security config) * 1000)%Z;
                               timer_status := Armed |};
                 kill_calls := 0; promise := Pending |},
      add_spawn call w))
  ∧ (env_spawn e ≠ spawned true true →
     ∃ message,
       call_tool config (execute_command shell command dir) e w
       = (Settled (inl (McpError InternalError message)), add_spawn call w)
       ∧ (∀ reason, env_spawn e = spawn_throws reason →
            message = spawn_failed_message reason)
       ∧ (∀ has_stdout has_stderr, env_spawn e = spawned has_stdout has_stderr →
            message = "Failed to initialize shell process streams")).
Proof.
  intros Hc call. unfold call_tool. rewrite Hc. simpl rethrow. cbv iota beta.
  unfold execute_command_spawn. fold call. split.
  - by intros ->.
  - intros Hne. destruct (env_spawn e) as [reason|has_stdout has_stderr].
    + eexists. split; [reflexivity|]. split; [by intros ? [= ->] | done].
    + destruct has_stdout, has_stderr; try done;
        (eexists; split; [reflexivity|]; split; [done | by intros ? ? _]).
Qed.

End SpillAndStart.

Module ExtraStarts.
Import SpecValidation SamplePlatform Examples MoreExamples.

(** After the spill of thirteen characters, a chunk of two that fits and a
    chunk of five that does not. *)
Lemma after_spill_nothing_is_dropped_witness :
  let spilled_state :=
    exec_run spilling [(1700000000123%Z, stdout_data "bbbbb")] (accumulated, after_spawn) in
  let s := exec_run spilling [(1700000000200%Z, stdout_data "cc");
                              (1700000000300%Z, stdout_data "ddddd")] spilled_state in
  output (fst s) = output (fst spilled_state) ++ "cc"
  ∧ file_content <$> files (snd s) !! spill_file = Some ("aaaaaaaabbbbb" ++ "ddddd")
  ∧ (JS.len "cc" + JS.len "ddddd" = 7)%Z.
Proof.
  refine (after_spill_nothing_is_dropped spilling spill_file
            [(1700000000200%Z, stdout_data "cc"); (1700000000300%Z, stdout_data "ddddd")]
            _ _ "aaaaaaaabbbbb" _ _ _ _ _).
  - reflexivity.
  - reflexivity.
  - reflexivity.
  - vm_compute. reflexivity.
  - repeat constructor.
Defined.

Lemma execute_command_spawn_outcomes_witness :
  call_tool roomy (execute_command "cmd" "dir" None) answers empty_world
  = (Running started, after_spawn).
Proof.
  refine (proj1 (execute_command_spawn_outcomes roomy "cmd" "dir" None answers empty_world cmd
                   "C:\work" _) _).
  - reflexivity.
  - reflexivity.
Defined.

End ExtraStarts.
